(** * VSWorlde: the feedback grader and the game round

    A shallow embedding of [src/VSWorlde.py].

    - A Python [str] is a [list ascii]: a sequence of code points below 256
      (Latin-1).  On these code points [str.lower] maps one character to one
      character, which [lower_char] writes out, and [str.strip] removes the
      characters of [is_space].
    - The feedback glyphs are the constructors [GREEN], [YELLOW], [BLACK];
      the specification calls them Exact, Present and Absent.
    - [remaining] is a Python [dict] from characters to [int]: a [gmap ascii Z].
    - [feedback] is a Python [list] assigned by index: stdpp's list insert,
      with the [IndexError] of an index out of range written out.
    - Exceptions are values of [exn], carried by the error monad [result].
    - [grade_guess] passes its local variables from one loop turn to the
      next; [grade_guess_heap] is the same function with the two objects on
      a heap, and is shown to agree with it.
    - [play_interactive] passes the process state: the allowed set, the
      random source, standard input and standard output. *)

From Stdlib Require Import ZArith Ascii String.
From stdpp Require Import base decidable option list gmap strings.

Local Open Scope Z_scope.

(** ** Data *)

Abbreviation str := (list ascii) (only parsing).

(** A string literal as a sequence of characters. *)
Definition chars (s : string) : str := list_ascii_of_string s.

Inductive tile : Set := GREEN | YELLOW | BLACK.

Global Instance tile_eq_dec : EqDecision tile.
Proof. solve_decision. Defined.

(** The exceptions.  [TypeError] stands for an operation on an object of
    the wrong kind. *)
Inductive exn : Set :=
  | ValueError (msg : string)
  | IndexError
  | KeyError
  | TypeError
  | EOFError.

Global Instance exn_eq_dec : EqDecision exn.
Proof. solve_decision. Defined.

Inductive result (A : Type) : Type :=
  | Ok (a : A)
  | Raise (e : exn).
Arguments Ok {A} a.
Arguments Raise {A} e.

(** The error monad; [x ← m; k] is stdpp's notation for its bind. *)
Global Instance result_bind : MBind result := λ A B k m,
  match m with
  | Ok a => k a
  | Raise e => Raise e
  end.

Global Instance result_ret : MRet result := λ A a, Ok a.

(** A [for] loop over a list whose body may raise. *)
Fixpoint for_each {S X} (body : S → X → result S) (xs : list X) (s : S)
  : result S :=
  match xs with
  | [] => Ok s
  | x :: xs' => s' ← body s x ; for_each body xs' s'
  end.

(** [enumerate(l)], counting from [k]. *)
Fixpoint enumerate_from {A} (k : nat) (l : list A) : list (nat * A) :=
  match l with
  | [] => []
  | x :: l' => (k, x) :: enumerate_from (S k) l'
  end.

Definition enumerate {A} (l : list A) : list (nat * A) := enumerate_from 0 l.

(** ** [str.lower] on Latin-1

    Python lowers the code points 65 to 90 (A to Z) and 192 to 222 except
    215 (the multiplication sign), each to the code point 32 above, and
    leaves the others below 256 as they are. *)

Definition is_upper (n : N) : bool :=
  ((65 <=? n) && (n <=? 90) || (192 <=? n) && (n <=? 222) && negb (n =? 215))%N.

Definition lower_char (c : ascii) : ascii :=
  let n := N_of_ascii c in
  if is_upper n then ascii_of_N (n + 32) else c.

Definition lower (s : str) : str := lower_char <$> s.

(** ** [grade_guess] *)

(** [d.get(k, 0)] *)
Definition dict_get (d : gmap ascii Z) (k : ascii) : Z := default 0 (d !! k).

(** [l[i]] *)
Definition getitem {A} (l : list A) (i : nat) : result A :=
  match l !! i with
  | Some x => Ok x
  | None => Raise IndexError
  end.

(** [l[i] = x] *)
Definition setitem {A} (l : list A) (i : nat) (x : A) : result (list A) :=
  if decide (i < length l)%nat then Ok (<[i:=x]> l) else Raise IndexError.

(** The local variables that the two loops update. *)
Record locals : Type := Locals {
  feedback : list tile;
  remaining : gmap ascii Z
}.

(** Body of [for i, ch in enumerate(solution)]. *)
Definition first_pass (guess : str) (st : locals) (ich : nat * ascii)
  : result locals :=
  let '(i, ch) := ich in
  g ← getitem guess i ;
  if decide (g = ch) then
    fb ← setitem (feedback st) i GREEN ;
    Ok (Locals fb (remaining st))
  else
    Ok (Locals (feedback st)
               (<[ch := dict_get (remaining st) ch + 1]> (remaining st))).

(** Body of [for i, ch in enumerate(guess)]. *)
Definition second_pass (st : locals) (ich : nat * ascii) : result locals :=
  let '(i, ch) := ich in
  f ← getitem (feedback st) i ;
  if decide (f = GREEN) then Ok st
  else if decide (dict_get (remaining st) ch > 0) then
    fb ← setitem (feedback st) i YELLOW ;
    match remaining st !! ch with
    | Some v => Ok (Locals fb (<[ch := v - 1]> (remaining st)))
    | None => Raise KeyError
    end
  else Ok st.

Definition grade_guess (solution guess : str) : result (list tile) :=
  let solution := lower solution in
  let guess := lower guess in
  if decide (length solution ≠ length guess) then
    Raise (ValueError "solution and guess must be same length")
  else
    let st := Locals (replicate (length guess) BLACK) ∅ in
    st ← for_each (first_pass guess) (enumerate solution) st ;
    st ← for_each second_pass (enumerate guess) st ;
    Ok (feedback st).

(** ** [grade_guess] on the heap

    The same function with its two mutable objects where Python has them:
    [feedback] and [remaining] are created on the heap by the call, updated
    in place through their references, and the reference of [feedback] is
    returned.  A [cmd] runs on a heap and leaves one, also when it raises. *)

Inductive object : Type :=
  | ListObj (items : list tile)
  | DictObj (entries : gmap ascii Z).

Definition cmd (A : Type) : Type := gmap nat object → result A * gmap nat object.

Global Instance cmd_ret : MRet cmd := λ A a h, (Ok a, h).

Global Instance cmd_bind : MBind cmd := λ A B k m h,
  match m h with
  | (Ok a, h') => k a h'
  | (Raise e, h') => (Raise e, h')
  end.

(** [raise e] *)
Definition raise {A} (e : exn) : cmd A := λ h, (Raise e, h).

(** A computation that does not touch the heap. *)
Definition pure {A} (r : result A) : cmd A := λ h, (r, h).

(** A new object, at an address not in use. *)
Definition new (o : object) : cmd nat := λ h,
  let l := fresh (dom h) in (Ok l, <[l := o]> h).

(** [l[i]] for the list at [ref] *)
Definition list_getitem (ref i : nat) : cmd tile := λ h,
  match h !! ref with
  | Some (ListObj items) => (getitem items i, h)
  | _ => (Raise TypeError, h)
  end.

(** [l[i] = x] for the list at [ref] *)
Definition list_setitem (ref i : nat) (x : tile) : cmd unit := λ h,
  match h !! ref with
  | Some (ListObj items) =>
      match setitem items i x with
      | Ok items' => (Ok (), <[ref := ListObj items']> h)
      | Raise e => (Raise e, h)
      end
  | _ => (Raise TypeError, h)
  end.

(** [d.get(k, 0)] for the dict at [ref] *)
Definition dict_get_default (ref : nat) (k : ascii) : cmd Z := λ h,
  match h !! ref with
  | Some (DictObj entries) => (Ok (dict_get entries k), h)
  | _ => (Raise TypeError, h)
  end.

(** [d[k]] for the dict at [ref] *)
Definition dict_getitem (ref : nat) (k : ascii) : cmd Z := λ h,
  match h !! ref with
  | Some (DictObj entries) =>
      match entries !! k with
      | Some v => (Ok v, h)
      | None => (Raise KeyError, h)
      end
  | _ => (Raise TypeError, h)
  end.

(** [d[k] = v] for the dict at [ref] *)
Definition dict_setitem (ref : nat) (k : ascii) (v : Z) : cmd unit := λ h,
  match h !! ref with
  | Some (DictObj entries) => (Ok (), <[ref := DictObj (<[k := v]> entries)]> h)
  | _ => (Raise TypeError, h)
  end.

Fixpoint for_each_cmd {X} (body : X → cmd unit) (xs : list X) : cmd unit :=
  match xs with
  | [] => mret ()
  | x :: xs' => _ ← body x ; for_each_cmd body xs'
  end.

Definition first_pass_heap (guess : str) (feedback remaining : nat)
    (ich : nat * ascii) : cmd unit :=
  let '(i, ch) := ich in
  g ← pure (getitem guess i) ;
  if decide (g = ch) then list_setitem feedback i GREEN
  else
    n ← dict_get_default remaining ch ;
    dict_setitem remaining ch (n + 1).

Definition second_pass_heap (feedback remaining : nat) (ich : nat * ascii)
  : cmd unit :=
  let '(i, ch) := ich in
  f ← list_getitem feedback i ;
  if decide (f = GREEN) then mret ()
  else
    n ← dict_get_default remaining ch ;
    if decide (n > 0) then
      _ ← list_setitem feedback i YELLOW ;
      v ← dict_getitem remaining ch ;
      dict_setitem remaining ch (v - 1)
    else mret ().

Definition grade_guess_heap (solution guess : str) : cmd nat :=
  let solution := lower solution in
  let guess := lower guess in
  if decide (length solution ≠ length guess) then
    raise (ValueError "solution and guess must be same length")
  else
    feedback ← new (ListObj (replicate (length guess) BLACK)) ;
    remaining ← new (DictObj ∅) ;
    _ ← for_each_cmd (first_pass_heap guess feedback remaining)
          (enumerate solution) ;
    _ ← for_each_cmd (second_pass_heap feedback remaining) (enumerate guess) ;
    mret feedback.

(** ** The game round

    The process state a round works on: the module's [ALLOWED] set, the
    random source, the lines still to come on standard input and the lines
    printed so far.  A printed line is an [event]; its wording is left out. *)

Definition SOLUTIONS : list str :=
  chars <$> [
    "apple"; "grace"; "plane"; "crane"; "stone"; "light"; "glass"; "flame";
    "pride"; "brave"; "shard"; "shoes"; "prism"; "civic"; "rally"; "karma";
    "honey"; "bling"; "mango"; "charm"; "fleet"; "quota"; "input"; "zesty";
    "dance"; "eagle"; "fable"; "gamer"; "hippo"; "jazzy"; "kayak"; "linen"
  ]%string.

Inductive event : Type :=
  | Welcome
  | Legend (max_guesses : nat)
  | Prompt (attempt max_guesses : nat)
  | WrongLength (length : nat)
  | NotAllowed
  | Tiles (feedback : list tile)
  | Nice (attempt : nat)
  | OutOfGuesses (solution : str).

Record world : Type := World {
  ALLOWED : gset (list ascii);
  random : nat → nat;
  stdin : list (list ascii);
  stdout : list event
}.

(** [print(...)] *)
Definition print (e : event) (out : list event) : list event := out ++ [e].

(** [str.isspace] of one character, on Latin-1. *)
Definition is_space (c : ascii) : bool :=
  let n := N_of_ascii c in
  ((9 <=? n) && (n <=? 13) || (28 <=? n) && (n <=? 32)
   || (n =? 133) || (n =? 160))%N.

Fixpoint lstrip (s : str) : str :=
  match s with
  | c :: s' => if is_space c then lstrip s' else s
  | [] => []
  end.

(** [str.strip()] *)
Definition strip (s : str) : str := reverse (lstrip (reverse (lstrip s))).

(** [random.choice(seq)]: the element at an index drawn from the random
    source; [IndexError] on an empty sequence. *)
Definition random_choice (seq : list str) (w : world) : result str * world :=
  match seq !! (random w 0 `mod` length seq)%nat with
  | Some x =>
      (Ok x, World (ALLOWED w) (λ n, random w (S n)) (stdin w) (stdout w))
  | None => (Raise IndexError, w)
  end.

(** [solution or random.choice(SOLUTIONS)]: [None] and the empty string
    are false. *)
Definition solution_or_choice (solution : option str) (w : world)
  : result str * world :=
  match solution with
  | Some (c :: s) => (Ok (c :: s), w)
  | _ => random_choice SOLUTIONS w
  end.

Definition max_guesses : nat := 6.

(** The [while True] loop that asks for a guess; each turn reads one line,
    and [input] raises [EOFError] when there is none. *)
Fixpoint read_guess (allowed : gset (list ascii)) (length_ attempt : nat)
    (lines : list str) (out : list event)
  : result str * list str * list event :=
  match lines with
  | [] => (Raise EOFError, [], print (Prompt attempt max_guesses) out)
  | line :: lines' =>
      let out := print (Prompt attempt max_guesses) out in
      let guess := lower (strip line) in
      if decide (length guess ≠ length_) then
        read_guess allowed length_ attempt lines' (print (WrongLength length_) out)
      else if decide (guess ∉ allowed) then
        read_guess allowed length_ attempt lines' (print NotAllowed out)
      else (Ok guess, lines', out)
  end.

(** [all(s == GREEN for s in feedback)] *)
Definition all_green (fb : list tile) : bool :=
  forallb (λ s, bool_decide (s = GREEN)) fb.

(** The [for attempt in ...] loop; the Boolean tells whether the body
    executed [return]. *)
Fixpoint guess_loop (allowed : gset (list ascii)) (solution : str)
    (attempts : list nat) (lines : list str) (out : list event)
  : result bool * list str * list event :=
  match attempts with
  | [] => (Ok false, lines, out)
  | attempt :: attempts' =>
      match read_guess allowed (length solution) attempt lines out with
      | (Raise e, lines, out) => (Raise e, lines, out)
      | (Ok guess, lines, out) =>
          match grade_guess solution guess with
          | Raise e => (Raise e, lines, out)
          | Ok fb =>
              let out := print (Tiles fb) out in
              if all_green fb then (Ok true, lines, print (Nice attempt) out)
              else guess_loop allowed solution attempts' lines out
          end
      end
  end.

Definition play_interactive (solution : option str) (w : world)
  : result unit * world :=
  match solution_or_choice solution w with
  | (Raise e, w) => (Raise e, w)
  | (Ok solution, w) =>
      let solution := lower solution in
      let out := print (Legend max_guesses) (print Welcome (stdout w)) in
      match guess_loop (ALLOWED w) solution (seq 1 max_guesses) (stdin w) out with
      | (Raise e, lines, out) =>
          (Raise e, World (ALLOWED w) (random w) lines out)
      | (Ok true, lines, out) =>
          (Ok (), World (ALLOWED w) (random w) lines out)
      | (Ok false, lines, out) =>
          (Ok (), World (ALLOWED w) (random w) lines
                        (print (OutOfGuesses solution) out))
      end
  end.

(** *** Notions for the properties of a round *)

(** The guess that a line of input stands for. *)
Definition normalise (line : str) : str := lower (strip line).

(** The guesses that the round accepts among the lines of input, in order. *)
Definition accepted (allowed : gset (list ascii)) (length_ : nat)
    (lines : list str) : list str :=
  filter (λ g, length g = length_ ∧ g ∈ allowed) (normalise <$> lines).

(** The guess is graded all [GREEN]. *)
Definition solves (solution guess : str) : Prop :=
  match grade_guess solution guess with
  | Ok fb => all_green fb = true
  | Raise _ => False
  end.

Global Instance solves_dec solution guess : Decision (solves solution guess).
Proof. unfold solves. destruct (grade_guess solution guess); apply _. Defined.

(** The solution a round plays with. *)
Definition round_solution (solution : option str) (w : world) : str :=
  match solution_or_choice solution w with
  | (Ok s, _) => lower s
  | (Raise _, _) => []
  end.

(** [fbs] are the gradings of [guesses] against [solution], in order. *)
Definition gradings (solution : str) (fbs : list (list tile))
    (guesses : list str) : Prop :=
  Forall2 (λ fb g, grade_guess solution g = Ok fb) fbs guesses.

(** A sample process state: a small allowed set, a random source that
    draws index 3 ("crane"), and six lines of input. *)
Definition sample_world : world :=
  World (list_to_set (chars <$> ["apple"; "crane"; "trace"; "stone"]%string))
        (λ _, 3%nat)
        (chars <$> ["  Trace "; "xx"; "zebra"; "STONE"; "crane"; "apple"]%string)
        [].

(** The feedback lines among the printed ones. *)
Definition tiles_of (out : list event) : list (list tile) :=
  omap (λ e, match e with Tiles fb => Some fb | _ => None end) out.

(** ** The two-pass reference algorithm of the specification

    Written from the specification's words: classifications [Exact],
    [Present], [Absent]; a per-character counter [remaining]; a first pass
    over all positions, then a second pass over the positions that the
    first one left unclassified. *)

Inductive classification : Set := Exact | Present | Absent.

Definition counter : Type := ascii → Z.

Definition incr (c : ascii) (r : counter) : counter :=
  λ x, if decide (x = c) then r x + 1 else r x.

Definition decr (c : ascii) (r : counter) : counter :=
  λ x, if decide (x = c) then r x - 1 else r x.

(** First pass: [Some Exact] where the characters agree; elsewhere the
    position stays unclassified and the solution's character is counted. *)
Fixpoint reference_first (solution guess : str) (remaining : counter)
  : list (option classification) * counter :=
  match solution, guess with
  | s :: solution', g :: guess' =>
      if decide (g = s) then
        let '(marks, r) := reference_first solution' guess' remaining in
        (Some Exact :: marks, r)
      else
        let '(marks, r) := reference_first solution' guess' (incr s remaining) in
        (None :: marks, r)
  | _, _ => ([], remaining)
  end.

(** Second pass, over the outcome of the first. *)
Fixpoint reference_second (marks : list (option classification)) (guess : str)
    (remaining : counter) : list classification :=
  match marks, guess with
  | Some cl :: marks', _ :: guess' =>
      cl :: reference_second marks' guess' remaining
  | None :: marks', g :: guess' =>
      if decide (remaining g > 0) then
        Present :: reference_second marks' guess' (decr g remaining)
      else
        Absent :: reference_second marks' guess' remaining
  | _, _ => []
  end.

Definition reference_grade (solution guess : str) : list classification :=
  let '(marks, remaining) := reference_first solution guess (λ _, 0) in
  reference_second marks guess remaining.

(** The glyph that displays a classification. *)
Definition glyph (cl : classification) : tile :=
  match cl with
  | Exact => GREEN
  | Present => YELLOW
  | Absent => BLACK
  end.

(** A position not yet classified shows the initial [BLACK]. *)
Definition pending_glyph (m : option classification) : tile :=
  from_option glyph BLACK m.

(** ** Auxiliary notions for the proofs *)

(** The dictionary [d] holds the counter [r]. *)
Definition holds (d : gmap ascii Z) (r : counter) : Prop :=
  ∀ c, dict_get d c = r c.

(** What the first pass leaves: each position is [Exact] or unclassified. *)
Definition first_pass_marks (marks : list (option classification)) : Prop :=
  Forall (λ m, m = None ∨ m = Some Exact) marks.

(** The marks of the first pass do not depend on the counter. *)
Definition exact_marks (solution guess : str) : list (option classification) :=
  zip_with (λ s g, if decide (g = s) then Some Exact else None) solution guess.

(** Positions where solution and guess both have [c]. *)
Definition matched (c : ascii) (solution guess : str) : nat :=
  length (filter (λ p, p.1 = c ∧ p.2 = p.1) (zip solution guess)).

(** The heap [h] with the two objects of a call, at [lf] and [lr], holding
    the local variables [st]. *)
Definition with_locals (lf lr : nat) (st : locals) (h : gmap nat object)
  : gmap nat object :=
  <[lr := DictObj (remaining st)]> (<[lf := ListObj (feedback st)]> h).

(** ** Counting positions

    The quantities the properties of the grader speak about.  A pair
    [(s, g)] of [zip solution guess] is one position: the solution's
    character and the guessed one. *)

(** Occurrences of [c] in [s]. *)
Definition occurrences (c : ascii) (s : str) : nat :=
  length (filter (λ x, x = c) s).

(** Positions whose guessed character is [c] and whose tile is [GREEN] or
    [YELLOW]. *)
Definition credited (c : ascii) (guess : str) (fb : list tile) : nat :=
  length (filter (λ p, p.1 = c ∧ (p.2 = GREEN ∨ p.2 = YELLOW)) (zip guess fb)).

(** Positions where the solution has [c] and the guess has another
    character: the occurrences of [c] that no exact match uses up. *)
Definition unmatched (c : ascii) (solution guess : str) : nat :=
  length (filter (λ p, p.1 = c ∧ p.2 ≠ p.1) (zip solution guess)).

(** Positions where the guess has [c] and the solution has another
    character. *)
Definition misplaced (c : ascii) (solution guess : str) : nat :=
  length (filter (λ p, p.2 = c ∧ p.2 ≠ p.1) (zip solution guess)).

(** The same, among the positions before [i]. *)
Definition misplaced_before (c : ascii) (i : nat) (solution guess : str) : nat :=
  misplaced c (take i solution) (take i guess).

(** ** Proof automation *)

(** Case analysis on every [decide] of the goal, then arithmetic or
    propositional closing. *)
Ltac case_decides :=
  repeat case_decide; destruct_and?; simplify_eq;
  try done; try lia; try (exfalso; tauto).

(** Undo the unfolding of [<$>] that [simpl] leaves behind. *)
Ltac refold_glyph :=
  change (list_fmap classification tile glyph) with (fmap (M:=list) glyph) in *.

(** ** Further notions for the grader *)

(** Positions whose guessed character is [c] and whose tile is [YELLOW]. *)
Definition yellows (c : ascii) (guess : str) (fb : list tile) : nat :=
  length (filter (λ p, p.1 = c ∧ p.2 = YELLOW) (zip guess fb)).

(** [case_decides], closing also the cases that need symmetry of equality. *)
Ltac case_decides_sym :=
  repeat case_decide; destruct_and?; simplify_eq;
  try done; try lia; try (exfalso; tauto); try (exfalso; intuition congruence).

(** ** Further notions for the round *)

(** The prompts of [out] carry the attempt number [a], raised by one after
    every feedback line, and the maximum [max_guesses]. *)
Fixpoint numbered (a : nat) (out : list event) : Prop :=
  match out with
  | [] => True
  | Prompt b m :: out' => b = a ∧ m = max_guesses ∧ numbered a out'
  | Tiles _ :: out' => numbered (S a) out'
  | _ :: out' => numbered a out'
  end.

Definition is_prompt (e : event) : bool :=
  match e with
  | Prompt _ _ => true
  | _ => false
  end.

(** The number of prompts among the printed lines. *)
Definition prompts_of (out : list event) : nat :=
  length (filter (λ e, is_prompt e = true) out).

(** ** The allowed set of the module

    [ALLOWED] as the module builds it when it is loaded: the static set,
    then [_augment_from_system_dict].  What the module asks of the operating
    system and of the interpreter is a [platform]: the answers of [os.path]
    and [os.listdir], the lines that reading a file yields, the directory of
    the module, and the stream of draws that a seed gives the random
    source. *)

(** What reading a file yields: its lines, or the lines read before an
    [OSError] (none when [open] itself fails). *)
Inductive reading : Type :=
  | Lines (lines : list str)
  | ReadError (lines : list str).

Record platform : Type := Platform {
  path_exists : str → bool;
  path_isdir : str → bool;
  path_isfile : str → bool;
  path_join : str → str → str;
  listdir : str → option (list str);
  read_file : str → reading;
  module_dir : str;
  seeded : Z → nat → nat
}.

(** How a function that may raise [OSError] ends. *)
Inductive os_outcome : Set := Completed | OSError.

Definition ALLOWED_static : gset (list ascii) :=
  list_to_set SOLUTIONS
  ∪ list_to_set (chars <$> [
      "about"; "other"; "which"; "their"; "there"; "would"; "these";
      "brown"; "quick"; "zebra"; "vivid"; "young"; "quiet"; "pound";
      "bound"; "stony"; "slope"; "pride"; "trace"
    ]%string).

(** [str.isalpha] of one character, on Latin-1: the letters A to Z and a to
    z, the code points 170, 181 and 186, and 192 to 255 except 215 and 247
    (the multiplication and division signs). *)
Definition is_alpha (c : ascii) : bool :=
  let n := N_of_ascii c in
  ((65 <=? n) && (n <=? 90) || (97 <=? n) && (n <=? 122)
   || (n =? 170) || (n =? 181) || (n =? 186)
   || (192 <=? n) && (n <=? 214) || (216 <=? n) && (n <=? 246)
   || (248 <=? n))%N.

(** [str.isalpha()]: no character that is not a letter, and at least one. *)
Definition isalpha (s : str) : bool :=
  match s with
  | [] => false
  | _ => forallb is_alpha s
  end.

(** Body of [for line in fh]. *)
Definition add_word (allowed : gset (list ascii)) (line : str)
  : gset (list ascii) :=
  let w := lower (strip line) in
  if decide (length w = 5%nat) then
    if isalpha w then {[w]} ∪ allowed else allowed
  else allowed.

(** [try: with open(p) as fh: for line in fh: ... except OSError: pass] *)
Definition add_file (pf : platform) (allowed : gset (list ascii)) (p : str)
  : gset (list ascii) :=
  match read_file pf p with
  | Lines lines => foldl add_word allowed lines
  | ReadError lines => foldl add_word allowed lines
  end.

Definition dict_paths : list str :=
  chars <$> [
    "/usr/share/dict/words"; "/usr/dict/words"; "/usr/dict/web2";
    "/usr/share/dict/web2"
  ]%string.

(** [_augment_from_system_dict], on the value of [ALLOWED]; the [OSError]
    of [os.listdir] is not caught. *)
Definition _augment_from_system_dict (pf : platform)
    (allowed : gset (list ascii)) : os_outcome * gset (list ascii) :=
  let allowed :=
    foldl (λ allowed p,
             if path_exists pf p then add_file pf allowed p else allowed)
          allowed dict_paths in
  let local_dir := path_join pf (module_dir pf) (chars "wordlists") in
  if path_isdir pf local_dir then
    match listdir pf local_dir with
    | None => (OSError, allowed)
    | Some names =>
        (Completed,
         foldl (λ allowed fname,
                  let fpath := path_join pf local_dir fname in
                  if path_isfile pf fpath then add_file pf allowed fpath
                  else allowed)
               allowed names)
    end
  else (Completed, allowed).

(** [ALLOWED] once the module is loaded. *)
Definition ALLOWED_loaded (pf : platform) : gset (list ascii) :=
  (_augment_from_system_dict pf ALLOWED_static).2.

(** A word of five letters, in lower case. *)
Definition five_letter_word (w : str) : Prop :=
  length w = 5%nat ∧ isalpha w = true ∧ lower w = w.

Global Instance five_letter_word_dec w : Decision (five_letter_word w).
Proof. unfold five_letter_word. apply _. Defined.

(** [allowed'] is [allowed] with five-letter words added. *)
Definition grown (allowed allowed' : gset (list ascii)) : Prop :=
  allowed ⊆ allowed'
  ∧ ∀ w, w ∈ allowed' → w ∈ allowed ∨ five_letter_word w.

(** ** The self-test and the command line

    [main] from the parsed arguments on: [args] is what
    [parser.parse_args] returns.  A line that [main] or [_selftest] prints
    is a [line]; the lines of a round are its [Game] lines. *)

Record args : Type := Args {
  selftest : bool;
  word : option str;
  seed : option Z
}.

Inductive line : Type :=
  | Game (e : event)
  | SelfTestFailed (solution guess : str) (expected got : list tile)
  | AllSelfTestsPassed
  | WordMustBeFive
  | Goodbye.

(** How a function ends that may return, call [sys.exit] or raise. *)
Inductive outcome (A : Type) : Type :=
  | Return (a : A)
  | SystemExit (code : Z)
  | Uncaught (e : exn).
Arguments Return {A} a.
Arguments SystemExit {A} code.
Arguments Uncaught {A} e.

Definition tests : list (str * str * list tile) :=
  [ (chars "apple", chars "apple", [GREEN; GREEN; GREEN; GREEN; GREEN]);
    (chars "crane", chars "crate", [GREEN; GREEN; GREEN; BLACK; GREEN]);
    (chars "arrow", chars "rarer", [YELLOW; YELLOW; GREEN; BLACK; BLACK]);
    (chars "sense", chars "seeds", [GREEN; GREEN; YELLOW; BLACK; YELLOW]) ].

(** The loop of [_selftest] and the line after it.  The glyphs are three
    distinct characters, so the joined strings differ exactly when the
    lists of tiles do. *)
Fixpoint run_tests (ts : list (str * str * list tile))
  : outcome unit * list line :=
  match ts with
  | [] => (Return (), [AllSelfTestsPassed])
  | (sol, guess, expected) :: ts' =>
      match grade_guess sol guess with
      | Raise e => (Uncaught e, [])
      | Ok fb =>
          if decide (fb ≠ expected) then
            (SystemExit 2, [SelfTestFailed sol guess expected fb])
          else run_tests ts'
      end
  end.

Definition _selftest : outcome unit * list line := run_tests tests.

(** [random.seed(args.seed)] when a seed is given. *)
Definition seed_random (pf : platform) (a : args) (w : world) : world :=
  match seed a with
  | Some n => World (ALLOWED w) (seeded pf n) (stdin w) (stdout w)
  | None => w
  end.

(** The rest of [main] once the solution to force, if any, is known. *)
Definition main_play (forced : option str) (w : world)
  : outcome Z * world * list line :=
  match play_interactive forced w with
  | (Ok _, w') => (Return 0, w', [])
  | (Raise EOFError, w') => (Return 1, w', [Goodbye])
  | (Raise e, w') => (Uncaught e, w', [])
  end.

(** [main]: how it ends, the process state it leaves, and the lines that
    it printed itself, which follow those of the round. *)
Definition main (pf : platform) (a : args) (w : world)
  : outcome Z * world * list line :=
  let w := seed_random pf a w in
  if selftest a then
    match _selftest with
    | (Return _, out) => (Return 0, w, out)
    | (SystemExit code, out) => (SystemExit code, w, out)
    | (Uncaught e, out) => (Uncaught e, w, out)
    end
  else
    match word a with
    | Some (c :: s) =>
        let wd := lower (strip (c :: s)) in
        if decide (length wd ≠ 5%nat) then (Return 2, w, [WordMustBeFive])
        else main_play (Some wd) w
    | _ => main_play None w
    end.

(** Everything on standard output when [main] has ended. *)
Definition printed (r : outcome Z * world * list line) : list line :=
  (Game <$> stdout r.1.2) ++ r.2.

(** The solution that the arguments force: none without [--word] or with
    an empty one. *)
Definition forced_word (a : args) : option str :=
  match word a with
  | Some (c :: s) => Some (lower (strip (c :: s)))
  | _ => None
  end.

(** A sample platform: no file, no directory, and a random source that
    draws index 3 whatever the seed. *)
Definition sample_platform : platform :=
  Platform (λ _, false) (λ _, false) (λ _, false) (λ a b, a ++ b)
           (λ _, None) (λ _, Lines []) [] (λ _ _, 3%nat).
(** ** The self-test scenarios *)

Example selftest_apple :
  grade_guess (chars "apple") (chars "apple")
  = Ok [GREEN; GREEN; GREEN; GREEN; GREEN].
Proof. vm_compute. reflexivity. Qed.

Example selftest_crane :
  grade_guess (chars "crane") (chars "crate")
  = Ok [GREEN; GREEN; GREEN; BLACK; GREEN].
Proof. vm_compute. reflexivity. Qed.

Example selftest_arrow :
  grade_guess (chars "arrow") (chars "rarer")
  = Ok [YELLOW; YELLOW; GREEN; BLACK; BLACK].
Proof. vm_compute. reflexivity. Qed.

Example selftest_sense :
  grade_guess (chars "sense") (chars "seeds")
  = Ok [GREEN; GREEN; YELLOW; BLACK; YELLOW].
Proof. vm_compute. reflexivity. Qed.


(** ** [lower] *)

Lemma lower_char_idemp c : lower_char (lower_char c) = lower_char c.
Proof. by destruct c as [[] [] [] [] [] [] [] []]. Qed.

Lemma length_lower s : length (lower s) = length s.
Proof. apply length_fmap. Qed.

Lemma lower_idemp s : lower (lower s) = lower s.
Proof.
  unfold lower. rewrite <- list_fmap_compose.
  apply list_fmap_ext. intros _ c _. apply lower_char_idemp.
Qed.

(** ** The loops of [grade_guess] compute the reference passes *)

Lemma dict_get_insert (d : gmap ascii Z) k v x :
  dict_get (<[k:=v]> d) x = if decide (x = k) then v else dict_get d x.
Proof.
  unfold dict_get. destruct (decide (x = k)) as [->|Hne].
  - by rewrite lookup_insert_eq.
  - by rewrite lookup_insert_ne.
Qed.

Lemma dict_get_positive (d : gmap ascii Z) k :
  dict_get d k > 0 → d !! k = Some (dict_get d k).
Proof. unfold dict_get. destruct (d !! k); simpl; [done | lia]. Qed.

Lemma first_pass_loop solution :
  ∀ guess (seen : list tile) (pre : str) d r,
    length seen = length pre →
    length solution = length guess →
    holds d r →
    ∃ d',
      for_each (first_pass (pre ++ guess))
               (enumerate_from (length seen) solution)
               (Locals (seen ++ replicate (length guess) BLACK) d)
      = Ok (Locals
              (seen ++ (pending_glyph <$> (reference_first solution guess r).1))
              d')
      ∧ holds d' (reference_first solution guess r).2.
Proof.
  induction solution as [|s solution IH];
    intros [|g guess] seen pre d r Hdone Hlen Hd; simplify_eq/=.
  { by exists d. }
  unfold getitem. rewrite Hdone, list_lookup_middle by done. simpl.
  rewrite <- Hdone.
  destruct (decide (g = s)) as [->|Hne].
  - unfold setitem. rewrite decide_True by (rewrite length_app; simpl; lia).
    simpl. rewrite insert_app_r_alt, Nat.sub_diag by done. simpl.
    destruct (IH guess (seen ++ [GREEN]) (pre ++ [s]) d r) as (d' & Hrun & Hd');
      [by rewrite !length_app, Hdone | done | done |].
    rewrite length_app, Nat.add_1_r, <- !(assoc_L (++)) in Hrun. simpl in Hrun.
    destruct (reference_first solution guess r) as [marks r'] eqn:Href.
    exists d'. split; [exact Hrun | exact Hd'].
  - destruct (IH guess (seen ++ [BLACK]) (pre ++ [g])
                 (<[s := dict_get d s + 1]> d) (incr s r))
      as (d' & Hrun & Hd'); [by rewrite !length_app, Hdone | done | |].
    { intros c. rewrite dict_get_insert. unfold incr.
      case_decide; subst; by rewrite Hd. }
    rewrite length_app, Nat.add_1_r, <- !(assoc_L (++)) in Hrun. simpl in Hrun.
    destruct (reference_first solution guess (incr s r)) as [marks r'] eqn:Href.
    exists d'. split; [exact Hrun | exact Hd'].
Qed.

Lemma reference_first_marks solution :
  ∀ guess r, first_pass_marks (reference_first solution guess r).1.
Proof.
  induction solution as [|s solution IH]; intros [|g guess] r; simpl;
    try by constructor.
  case_decide.
  - specialize (IH guess r). destruct (reference_first solution guess r).
    constructor; [by right | done].
  - specialize (IH guess (incr s r)).
    destruct (reference_first solution guess (incr s r)).
    constructor; [by left | done].
Qed.

Lemma reference_first_length solution :
  ∀ guess r,
    length solution = length guess →
    length (reference_first solution guess r).1 = length guess.
Proof.
  induction solution as [|s solution IH]; intros [|g guess] r Hlen;
    simplify_eq/=; [done|].
  case_decide.
  - specialize (IH guess r Hlen). destruct (reference_first solution guess r).
    simpl in *. by rewrite IH.
  - specialize (IH guess (incr s r) Hlen).
    destruct (reference_first solution guess (incr s r)).
    simpl in *. by rewrite IH.
Qed.

Lemma second_pass_loop marks :
  ∀ guess (seen : list tile) d r,
    first_pass_marks marks →
    length marks = length guess →
    holds d r →
    ∃ d',
      for_each second_pass (enumerate_from (length seen) guess)
               (Locals (seen ++ (pending_glyph <$> marks)) d)
      = Ok (Locals (seen ++ (glyph <$> reference_second marks guess r)) d').
Proof.
  induction marks as [|m marks IH]; intros [|g guess] seen d r Hm Hlen Hd;
    simplify_eq/=.
  { by exists d. }
  apply Forall_cons in Hm as [Hm Hmarks].
  unfold getitem. rewrite list_lookup_middle by done. simpl.
  destruct Hm as [-> | ->]; simpl.
  - rewrite <- (Hd g).
    destruct (decide (dict_get d g > 0)) as [Hpos|Hpos].
    + unfold setitem. rewrite decide_True by (rewrite length_app; simpl; lia).
      simpl. rewrite insert_app_r_alt, Nat.sub_diag by done. simpl.
      rewrite (dict_get_positive d g Hpos).
      destruct (IH guess (seen ++ [YELLOW]) (<[g := dict_get d g - 1]> d)
                   (decr g r)) as (d' & Hrun); [done | done | |].
      { intros c. rewrite dict_get_insert. unfold decr.
        case_decide; subst; by rewrite Hd. }
      rewrite length_app, Nat.add_1_r, <- !(assoc_L (++)) in Hrun.
      exists d'. exact Hrun.
    + destruct (IH guess (seen ++ [BLACK]) d r) as (d' & Hrun); [done..|].
      rewrite length_app, Nat.add_1_r, <- !(assoc_L (++)) in Hrun.
      exists d'. exact Hrun.
  - destruct (IH guess (seen ++ [GREEN]) d r) as (d' & Hrun); [done..|].
    rewrite length_app, Nat.add_1_r, <- !(assoc_L (++)) in Hrun.
    exists d'. exact Hrun.
Qed.

(** [grade_guess] on strings of equal length returns the glyphs of the
    reference grading of the lowered strings. *)
Lemma grade_guess_reference solution guess :
  length solution = length guess →
  grade_guess solution guess
  = Ok (glyph <$> reference_grade (lower solution) (lower guess)).
Proof.
  intros Hlen. unfold grade_guess, reference_grade.
  rewrite decide_False by (rewrite !length_lower; lia).
  assert (Hlen' : length (lower solution) = length (lower guess))
    by by rewrite !length_lower.
  destruct (first_pass_loop (lower solution) (lower guess) [] [] ∅ (λ _, 0))
    as (d1 & Hrun1 & Hd1); [done | done | done |].
  simpl in Hrun1. unfold enumerate. rewrite Hrun1. clear Hrun1.
  pose proof (reference_first_marks (lower solution) (lower guess) (λ _, 0))
    as Hmarks.
  pose proof (reference_first_length (lower solution) (lower guess) (λ _, 0)
                Hlen') as Hmlen.
  destruct (reference_first (lower solution) (lower guess) (λ _, 0))
    as [marks r1]. simpl in *.
  destruct (second_pass_loop marks (lower guess) [] d1 r1)
    as (d2 & Hrun2); [done..|].
  simpl in Hrun2. by rewrite Hrun2.
Qed.

(** ** Properties of the reference passes *)

Lemma reference_first_exact_marks solution :
  ∀ guess r, (reference_first solution guess r).1 = exact_marks solution guess.
Proof.
  induction solution as [|s solution IH]; intros [|g guess] r; simpl; try done.
  case_decide.
  - specialize (IH guess r). destruct (reference_first solution guess r).
    simpl in *. by rewrite IH.
  - specialize (IH guess (incr s r)).
    destruct (reference_first solution guess (incr s r)).
    simpl in *. by rewrite IH.
Qed.

Lemma unmatched_cons c s g solution guess :
  unmatched c (s :: solution) (g :: guess)
  = ((if decide (s = c ∧ g ≠ s) then 1 else 0) + unmatched c solution guess)%nat.
Proof.
  unfold unmatched. simpl. rewrite filter_cons. simpl.
  repeat case_decide; simpl; tauto || lia.
Qed.

Lemma misplaced_cons c s g solution guess :
  misplaced c (s :: solution) (g :: guess)
  = ((if decide (g = c ∧ g ≠ s) then 1 else 0) + misplaced c solution guess)%nat.
Proof.
  unfold misplaced. simpl. rewrite filter_cons. simpl.
  repeat case_decide; simpl; tauto || lia.
Qed.

Lemma occurrences_cons c x s :
  occurrences c (x :: s)
  = ((if decide (x = c) then 1 else 0) + occurrences c s)%nat.
Proof. unfold occurrences. rewrite filter_cons. by case_decide. Qed.

Lemma credited_cons c g t guess fb :
  credited c (g :: guess) (t :: fb)
  = ((if decide (g = c ∧ t ≠ BLACK) then 1 else 0) + credited c guess fb)%nat.
Proof.
  unfold credited. simpl. rewrite filter_cons. simpl.
  destruct t; repeat case_decide; simpl; try lia; intuition congruence.
Qed.

(** After the first pass the counter of [c] has grown by [unmatched c]. *)
Lemma reference_first_counter solution :
  ∀ guess r c,
    (reference_first solution guess r).2 c
    = r c + Z.of_nat (unmatched c solution guess).
Proof.
  induction solution as [|s solution IH]; intros [|g guess] r c; simpl;
    try (unfold unmatched; simpl; lia).
  rewrite unmatched_cons. case_decide.
  - specialize (IH guess r c). destruct (reference_first solution guess r).
    simpl in *. rewrite IH. rewrite decide_False by tauto. lia.
  - specialize (IH guess (incr s r) c).
    destruct (reference_first solution guess (incr s r)).
    simpl in *. rewrite IH. unfold incr.
    case_decides.
Qed.

Lemma matched_cons c s g solution guess :
  matched c (s :: solution) (g :: guess)
  = ((if decide (s = c ∧ g = s) then 1 else 0) + matched c solution guess)%nat.
Proof.
  unfold matched. simpl. rewrite filter_cons. simpl.
  repeat case_decide; simpl; tauto || lia.
Qed.

Lemma matched_unmatched_occurrences c solution :
  ∀ guess,
    (matched c solution guess + unmatched c solution guess
     ≤ occurrences c solution)%nat.
Proof.
  induction solution as [|s solution IH]; intros [|g guess].
  1-3: unfold matched, unmatched; simpl; lia.
  rewrite matched_cons, unmatched_cons, occurrences_cons.
  specialize (IH guess).
  case_decides.
Qed.

Lemma reference_second_length marks :
  ∀ guess r,
    length marks = length guess →
    length (reference_second marks guess r) = length guess.
Proof.
  induction marks as [|[cl|] marks IH]; intros [|g guess] r Hlen;
    simplify_eq/=; try done.
  - by rewrite IH.
  - case_decide; simpl; by rewrite IH.
Qed.

(** The second pass credits [c] at most [r c] times beyond the exact
    matches. *)
Lemma reference_second_credited c solution :
  ∀ guess r,
    0 ≤ r c →
    Z.of_nat (credited c guess
                (glyph <$> reference_second (exact_marks solution guess) guess r))
    ≤ Z.of_nat (matched c solution guess) + r c.
Proof.
  induction solution as [|s solution IH]; intros [|g guess] r Hr;
    try (unfold credited, matched; simpl; lia).
  unfold exact_marks. simpl. fold (exact_marks solution guess).
  rewrite matched_cons.
  destruct (decide (g = s)) as [->|Hne]; simpl.
  - rewrite credited_cons. refold_glyph. specialize (IH guess r Hr).
    case_decides.
  - destruct (decide (r g > 0)) as [Hpos|Hpos]; simpl; rewrite credited_cons;
      refold_glyph.
    + assert (decr g r c = if decide (c = g) then r c - 1 else r c) as Hd
        by done.
      assert (0 ≤ decr g r c) as Hr' by (rewrite Hd; case_decide; subst; lia).
      specialize (IH guess (decr g r) Hr'). rewrite Hd in IH. case_decides.
    + specialize (IH guess r Hr). case_decides.
Qed.

(** The classification of each position in closed form. *)
Lemma reference_second_lookup solution :
  ∀ guess r i c s,
    guess !! i = Some c →
    solution !! i = Some s →
    reference_second (exact_marks solution guess) guess r !! i
    = Some (if decide (c = s) then Exact
            else if decide (Z.of_nat (misplaced_before c i solution guess) < r c)
                 then Present else Absent).
Proof.
  induction solution as [|s0 solution IH]; intros [|g guess] r i c s Hg Hs;
    try done.
  unfold exact_marks. simpl. fold (exact_marks solution guess).
  destruct i as [|i]; simplify_eq/=.
  - unfold misplaced_before, misplaced. simpl.
    destruct (decide (c = s)); simpl; [done|].
    repeat case_decide; try done; lia.
  - unfold misplaced_before. simpl. rewrite misplaced_cons.
    fold (misplaced_before c i solution guess).
    destruct (decide (g = s0)) as [->|Hne]; simpl.
    + rewrite (IH guess r i c s Hg Hs).
      rewrite (decide_False (P := _ ∧ _)) by tauto. done.
    + destruct (decide (r g > 0)) as [Hpos|Hpos]; simpl;
        rewrite (IH guess _ i c s Hg Hs); unfold decr;
        destruct (decide (c = s)); try done;
        case_decides.
Qed.

(** ** The grader *)

Lemma grade_guess_mismatch solution guess :
  length solution ≠ length guess →
  grade_guess solution guess
  = Raise (ValueError "solution and guess must be same length").
Proof.
  intros Hne. unfold grade_guess.
  by rewrite decide_True by (by rewrite !length_lower).
Qed.

Lemma reference_grade_length solution guess :
  length solution = length guess →
  length (reference_grade solution guess) = length guess.
Proof.
  intros Hlen. unfold reference_grade.
  pose proof (reference_first_length solution guess (λ _, 0) Hlen) as Hm.
  destruct (reference_first solution guess (λ _, 0)) as [marks r].
  by apply reference_second_length.
Qed.

(** [reference_grade] position by position: [Exact] where the characters
    agree; elsewhere [Present] for as long as the misplaced occurrences of
    the guessed character before the position leave one of its unmatched
    occurrences in the solution. *)
Lemma reference_grade_lookup solution guess i c s :
  guess !! i = Some c →
  solution !! i = Some s →
  reference_grade solution guess !! i
  = Some (if decide (c = s) then Exact
          else if decide (misplaced_before c i solution guess
                          < unmatched c solution guess)%nat
               then Present else Absent).
Proof.
  intros Hg Hs. unfold reference_grade.
  pose proof (reference_first_exact_marks solution guess (λ _, 0)) as Hm.
  pose proof (reference_first_counter solution guess (λ _, 0) c) as Hr.
  destruct (reference_first solution guess (λ _, 0)) as [marks r].
  simpl in *. subst marks.
  rewrite (reference_second_lookup solution guess r i c s Hg Hs), Hr.
  case_decides.
Qed.

Lemma reference_grade_credited solution guess c :
  (credited c guess (glyph <$> reference_grade solution guess)
   ≤ occurrences c solution)%nat.
Proof.
  unfold reference_grade.
  pose proof (reference_first_exact_marks solution guess (λ _, 0)) as Hm.
  pose proof (reference_first_counter solution guess (λ _, 0) c) as Hr.
  destruct (reference_first solution guess (λ _, 0)) as [marks r].
  simpl in *. subst marks.
  pose proof (reference_second_credited c solution guess r) as Hc.
  pose proof (matched_unmatched_occurrences c solution guess).
  lia.
Qed.

Lemma reference_grade_self s :
  reference_grade s s = replicate (length s) Exact.
Proof.
  apply list_eq_same_length with (length s);
    [by rewrite length_replicate | by apply reference_grade_length |].
  intros i x y Hi Hx Hy.
  apply lookup_replicate in Hy as [-> _].
  destruct (lookup_lt_is_Some_2 s i Hi) as [c Hc].
  rewrite (reference_grade_lookup s s i c c Hc Hc) in Hx.
  rewrite decide_True in Hx by done. congruence.
Qed.

Lemma misplaced_before_mono c solution guess i j :
  (i ≤ j)%nat →
  (misplaced_before c i solution guess ≤ misplaced_before c j solution guess)%nat.
Proof.
  intros Hij. unfold misplaced_before, misplaced.
  rewrite <- !zip_with_take.
  replace (take i (zip solution guess))
    with (take i (take j (zip solution guess)))
    by (rewrite take_take; f_equal; lia).
  rewrite <- (take_drop i (take j (zip solution guess))) at 2.
  rewrite filter_app, length_app. lia.
Qed.

(** ** The game round *)

Lemma tiles_of_app out1 out2 :
  tiles_of (out1 ++ out2) = tiles_of out1 ++ tiles_of out2.
Proof. apply omap_app. Qed.

Lemma accepted_cons allowed len line lines :
  accepted allowed len (line :: lines)
  = if decide (length (normalise line) = len ∧ normalise line ∈ allowed)
    then normalise line :: accepted allowed len lines
    else accepted allowed len lines.
Proof. unfold accepted. rewrite fmap_cons, filter_cons. done. Qed.

(** What one run of the asking loop does: it prints no feedback, and it
    returns the first acceptable guess of the input, leaving the lines after
    it; without one it ends in [EOFError]. *)
Lemma read_guess_spec allowed len attempt lines :
  ∀ out,
    ∃ extra,
      (read_guess allowed len attempt lines out).2 = out ++ extra
      ∧ tiles_of extra = []
      ∧ match (read_guess allowed len attempt lines out).1.1 with
        | Ok g =>
            accepted allowed len lines
            = g :: accepted allowed len
                     (read_guess allowed len attempt lines out).1.2
            ∧ length g = len
        | Raise e => e = EOFError ∧ accepted allowed len lines = []
        end.
Proof.
  induction lines as [|line lines IH]; intros out; simpl.
  { exists [Prompt attempt max_guesses]. done. }
  rewrite accepted_cons. unfold normalise, print.
  destruct (decide (length (lower (strip line)) ≠ len)) as [Hlen|Hlen].
  { destruct (IH ((out ++ [Prompt attempt max_guesses]) ++ [WrongLength len]))
      as (extra & Hout & Htiles & Hres).
    exists ([Prompt attempt max_guesses; WrongLength len] ++ extra).
    rewrite Hout, tiles_of_app, Htiles, decide_False by tauto.
    split_and!; [by rewrite <- !(assoc_L (++)) | done | done]. }
  destruct (decide (lower (strip line) ∉ allowed)) as [Hin|Hin].
  { destruct (IH ((out ++ [Prompt attempt max_guesses]) ++ [NotAllowed]))
      as (extra & Hout & Htiles & Hres).
    exists ([Prompt attempt max_guesses; NotAllowed] ++ extra).
    rewrite Hout, tiles_of_app, Htiles, decide_False by tauto.
    split_and!; [by rewrite <- !(assoc_L (++)) | done | done]. }
  exists [Prompt attempt max_guesses]. simpl.
  apply dec_stable in Hlen, Hin. by rewrite decide_True.
Qed.

Lemma grade_guess_Ok solution guess :
  length solution = length guess →
  ∃ fb, grade_guess solution guess = Ok fb ∧ length fb = length guess.
Proof.
  intros Hlen. eexists. split; [by apply grade_guess_reference|].
  rewrite length_fmap, reference_grade_length, length_lower;
    [done | by rewrite !length_lower].
Qed.

Lemma last_app_cons {A} (l1 l2 : list A) x y :
  last l2 = Some y → last (l1 ++ x :: l2) = Some y.
Proof.
  intros Hl2. destruct l2 as [|z l2]; [done|].
  change (l1 ++ x :: z :: l2) with (l1 ++ [x] ++ z :: l2).
  by rewrite (assoc_L (++)), last_app, Hl2.
Qed.

(** What the loop over the attempts does with the guesses that the input
    holds: it grades them in order and stops at the first one that solves. *)
Lemma guess_loop_spec allowed solution n :
  ∀ a lines out,
    ∃ extra,
      (guess_loop allowed solution (seq a n) lines out).2 = out ++ extra
      ∧ let acc := accepted allowed (length solution) lines in
        let r := (guess_loop allowed solution (seq a n) lines out).1.1 in
        match list_find (solves solution) (take n acc) with
        | Some (k, _) =>
            r = Ok true
            ∧ last extra = Some (Nice (a + k))
            ∧ gradings solution (tiles_of extra) (take (S k) acc)
        | None =>
            if decide (n ≤ length acc)%nat then
              r = Ok false ∧ gradings solution (tiles_of extra) (take n acc)
            else
              r = Raise EOFError ∧ gradings solution (tiles_of extra) acc
        end.
Proof.
  induction n as [|n IH]; intros a lines out; simpl.
  { exists []. rewrite (right_id_L [] (++)). split; [done|].
    split; [done | constructor]. }
  destruct (read_guess_spec allowed (length solution) a lines out)
    as (extra1 & Hout1 & Htiles1 & Hres1).
  destruct (read_guess allowed (length solution) a lines out)
    as [[[g|e] lines1] out1]; simpl in *; subst out1.
  2: { destruct Hres1 as [-> ->]. exists extra1. simpl.
       rewrite Htiles1. split_and!; [done | done | constructor]. }
  destruct Hres1 as [-> Hlen].
  destruct (grade_guess_Ok solution g) as (fb & Hfb & _); [done|].
  assert (solves solution g ↔ all_green fb = true) as Hsolves
    by (unfold solves; by rewrite Hfb).
  rewrite Hfb. simpl.
  destruct (all_green fb) eqn:Hgreen; simpl.
  - rewrite decide_True by tauto.
    exists (extra1 ++ [Tiles fb; Nice a]). unfold print.
    rewrite <- !(assoc_L (++)). split; [done|]. simpl.
    rewrite Nat.add_0_r, last_app, tiles_of_app, Htiles1. simpl.
    split_and!; [done | done |]. repeat constructor. done.
  - rewrite decide_False by (rewrite Hsolves; done).
    destruct (IH (S a) lines1 (print (Tiles fb) (out ++ extra1)))
      as (extra2 & Hout2 & Hres2).
    exists (extra1 ++ Tiles fb :: extra2). unfold print in *.
    split; [by rewrite Hout2, <- !(assoc_L (++))|].
    simpl in *. rewrite tiles_of_app, Htiles1. simpl.
    destruct (list_find (solves solution)
                (take n (accepted allowed (length solution) lines1)))
      as [[k x]|]; simpl.
    + destruct Hres2 as (Hr & Hlast & Hgr).
      split_and!; [done | | constructor; [done | exact Hgr]].
      rewrite (last_app_cons _ _ _ _ Hlast). do 2 f_equal. lia.
    + destruct (decide (n ≤ length (accepted allowed (length solution) lines1))%nat).
      * rewrite decide_True by lia. destruct Hres2.
        split; [done | by constructor].
      * rewrite decide_False by lia. destruct Hres2.
        split; [done | by constructor].
Qed.

(** A round on [sample_world]: the solution is drawn ("crane"); "trace"
    and "stone" are graded, "xx" and "zebra" are asked again at attempt 2,
    and "crane" wins at attempt 3, leaving the last line unread. *)
Example play_interactive_sample :
  (play_interactive None sample_world).1 = Ok ()
  ∧ stdin (play_interactive None sample_world).2 = [chars "apple"]
  ∧ stdout (play_interactive None sample_world).2
    = [Welcome; Legend 6;
       Prompt 1 6; Tiles [BLACK; GREEN; GREEN; YELLOW; GREEN];
       Prompt 2 6; WrongLength 5;
       Prompt 2 6; NotAllowed;
       Prompt 2 6; Tiles [BLACK; BLACK; BLACK; GREEN; GREEN];
       Prompt 3 6; Tiles [GREEN; GREEN; GREEN; GREEN; GREEN];
       Nice 3].
Proof. vm_compute. done. Qed.

Lemma random_choice_SOLUTIONS w :
  ∃ s, random_choice SOLUTIONS w
       = (Ok s, World (ALLOWED w) (λ n, random w (S n)) (stdin w) (stdout w)).
Proof.
  unfold random_choice.
  destruct (lookup_lt_is_Some_2 SOLUTIONS
              (random w 0 `mod` length SOLUTIONS)%nat) as [s Hs].
  { apply Nat.mod_upper_bound. done. }
  rewrite Hs. by exists s.
Qed.

Lemma solution_or_choice_Ok solution w :
  ∃ s w',
    solution_or_choice solution w = (Ok s, w')
    ∧ ALLOWED w' = ALLOWED w ∧ stdin w' = stdin w ∧ stdout w' = stdout w.
Proof.
  destruct solution as [[|c s]|]; simpl.
  2: { by exists (c :: s), w. }
  all: destruct (random_choice_SOLUTIONS w) as [s ->]; by eexists _, _.
Qed.

(** ** The heap model refines the functional one *)

Section heap.
Variables lf lr : nat.
Hypothesis distinct : lf ≠ lr.

Lemma with_locals_feedback st h :
  with_locals lf lr st h !! lf = Some (ListObj (feedback st)).
Proof.
  unfold with_locals. by rewrite lookup_insert_ne, lookup_insert_eq.
Qed.

Lemma with_locals_remaining st h :
  with_locals lf lr st h !! lr = Some (DictObj (remaining st)).
Proof. unfold with_locals. by rewrite lookup_insert_eq. Qed.

Lemma with_locals_set_feedback st h fb :
  <[lf := ListObj fb]> (with_locals lf lr st h)
  = with_locals lf lr (Locals fb (remaining st)) h.
Proof.
  unfold with_locals. simpl.
  by rewrite insert_insert_ne, insert_insert_eq.
Qed.

Lemma with_locals_set_remaining st h d :
  <[lr := DictObj d]> (with_locals lf lr st h)
  = with_locals lf lr (Locals (feedback st) d) h.
Proof. unfold with_locals. simpl. by rewrite insert_insert_eq. Qed.

Lemma first_pass_heap_ok guess st x st' h :
  first_pass guess st x = Ok st' →
  first_pass_heap guess lf lr x (with_locals lf lr st h)
  = (Ok (), with_locals lf lr st' h).
Proof.
  destruct x as [i ch]. unfold first_pass, first_pass_heap.
  unfold mbind, cmd_bind, pure.
  destruct (getitem guess i) as [g|e]; simpl; [|done].
  destruct (decide (g = ch)) as [->|Hne].
  - unfold list_setitem. rewrite with_locals_feedback.
    destruct (setitem (feedback st) i GREEN) as [fb|e]; simpl; [|done].
    intros [= <-]. by rewrite with_locals_set_feedback.
  - intros [= <-]. unfold dict_get_default, dict_setitem.
    rewrite with_locals_remaining. simpl.
    by rewrite with_locals_remaining, with_locals_set_remaining.
Qed.

Lemma second_pass_heap_ok st x st' h :
  second_pass st x = Ok st' →
  second_pass_heap lf lr x (with_locals lf lr st h)
  = (Ok (), with_locals lf lr st' h).
Proof.
  destruct x as [i ch]. unfold second_pass, second_pass_heap.
  unfold mbind, cmd_bind, list_getitem. rewrite with_locals_feedback.
  destruct (getitem (feedback st) i) as [f|e]; simpl; [|done].
  destruct (decide (f = GREEN)); [by intros [= <-]|].
  unfold dict_get_default. rewrite with_locals_remaining.
  destruct (decide (dict_get (remaining st) ch > 0)); [|by intros [= <-]].
  unfold list_setitem. rewrite with_locals_feedback.
  destruct (setitem (feedback st) i YELLOW) as [fb|e]; simpl; [|done].
  rewrite with_locals_set_feedback.
  unfold dict_getitem, dict_setitem. rewrite !with_locals_remaining. simpl.
  destruct (remaining st !! ch) as [v|]; [|done].
  intros [= <-].
  by rewrite with_locals_remaining, with_locals_set_remaining.
Qed.

Lemma for_each_heap_ok {X} (body : locals → X → result locals)
    (body_heap : X → cmd unit) h :
  (∀ st x st',
     body st x = Ok st' →
     body_heap x (with_locals lf lr st h) = (Ok (), with_locals lf lr st' h)) →
  ∀ xs st st',
    for_each body xs st = Ok st' →
    for_each_cmd body_heap xs (with_locals lf lr st h)
    = (Ok (), with_locals lf lr st' h).
Proof.
  intros Hbody. induction xs as [|x xs IH]; intros st st'; simpl.
  { by intros [= <-]. }
  destruct (body st x) as [st1|e] eqn:Hx; simpl; [|done].
  intros Hrest. unfold mbind, cmd_bind.
  rewrite (Hbody _ _ _ Hx). by apply IH.
Qed.
End heap.

(** A call on the heap [h]: when the function returns feedback, the call
    creates the list holding it and the dictionary, at two addresses that
    [h] does not use, and returns the address of the list; when the function
    raises, the call raises the same and [h] stays as it is. *)
Lemma grade_guess_heap_spec solution guess h :
  match grade_guess solution guess with
  | Ok fb =>
      ∃ lf lr d,
        lf ≠ lr ∧ h !! lf = None ∧ h !! lr = None
        ∧ grade_guess_heap solution guess h
          = (Ok lf, <[lr := DictObj d]> (<[lf := ListObj fb]> h))
  | Raise e => grade_guess_heap solution guess h = (Raise e, h)
  end.
Proof.
  destruct (decide (length solution = length guess)) as [Heq|Hne].
  2: { rewrite (grade_guess_mismatch _ _ Hne). unfold grade_guess_heap.
       by rewrite decide_True by (by rewrite !length_lower). }
  destruct (grade_guess_Ok _ _ Heq) as (fb & Hfb & _). rewrite Hfb.
  unfold grade_guess in Hfb. unfold grade_guess_heap. cbv zeta in Hfb |- *.
  rewrite decide_False in Hfb by (rewrite !length_lower; lia).
  rewrite decide_False by (rewrite !length_lower; lia).
  unfold mbind at 1 2 3 4, cmd_bind, new. simpl.
  set (st0 := Locals (replicate (length (lower guess)) BLACK) ∅) in *.
  set (lf := fresh (dom h)).
  change (replicate (length (lower guess)) BLACK) with (feedback st0).
  set (lr := fresh (dom (<[lf := ListObj (feedback st0)]> h))).
  assert (Hlf : h !! lf = None) by apply not_elem_of_dom, is_fresh.
  assert (Hlr : <[lf := ListObj (feedback st0)]> h !! lr = None)
    by apply not_elem_of_dom, is_fresh.
  assert (Hdistinct : lf ≠ lr).
  { intros Heq'. rewrite <- Heq', lookup_insert_eq in Hlr. done. }
  rewrite lookup_insert_ne in Hlr by done.
  change (<[lr := DictObj ∅]> (<[lf := ListObj (feedback st0)]> h))
    with (with_locals lf lr st0 h).
  destruct (for_each (first_pass (lower guess)) (enumerate (lower solution)) st0)
    as [st1|e] eqn:Hrun1; simpl in Hfb; [|done].
  destruct (for_each second_pass (enumerate (lower guess)) st1)
    as [st2|e] eqn:Hrun2; simpl in Hfb; [|done].
  injection Hfb as <-.
  exists lf, lr, (remaining st2). split_and!; [done..|].
  rewrite (for_each_heap_ok lf lr _ _ h
             (λ st x st',
                first_pass_heap_ok lf lr Hdistinct (lower guess) st x st' h)
             _ _ _ Hrun1).
  rewrite (for_each_heap_ok lf lr _ _ h
             (λ st x st', second_pass_heap_ok lf lr Hdistinct st x st' h)
             _ _ _ Hrun2).
  done.
Qed.

(** ** The claims *)

(** C1. For strings of equal length and every character [c], the positions
    of the feedback that are [GREEN] (Exact) or [YELLOW] (Present) and whose
    guessed character is [c] are at most as many as the occurrences of [c]
    in the solution.  The characters are those the grader compares, the
    lowered ones; on lowercase input they are the input's own. *)
Theorem grade_guess_credit_bound solution guess fb c :
  length solution = length guess →
  grade_guess solution guess = Ok fb →
  (credited c (lower guess) fb ≤ occurrences c (lower solution))%nat
  ∧ (lower solution = solution → lower guess = guess →
     (credited c guess fb ≤ occurrences c solution)%nat).
Proof.
  intros Hlen Hgrade.
  rewrite (grade_guess_reference _ _ Hlen) in Hgrade. simplify_eq.
  pose proof (reference_grade_credited (lower solution) (lower guess) c) as H.
  split; [done|]. intros Hs Hg. by rewrite Hs, Hg in H |- *.
Qed.

Lemma grade_guess_credit_bound_witness :
  (credited "r" (lower (chars "rarer")) [YELLOW; YELLOW; GREEN; BLACK; BLACK]
   ≤ occurrences "r" (lower (chars "arrow")))%nat
  ∧ (lower (chars "arrow") = chars "arrow" →
     lower (chars "rarer") = chars "rarer" →
     (credited "r" (chars "rarer") [YELLOW; YELLOW; GREEN; BLACK; BLACK]
      ≤ occurrences "r" (chars "arrow"))%nat).
Proof.
  apply (grade_guess_credit_bound (chars "arrow") (chars "rarer")).
  - reflexivity.
  - vm_compute. reflexivity.
Defined.



(** C3. The four scenarios of the self-test: apple/apple, crane/crate,
    arrow/rarer and sense/seeds. *)
Theorem grade_guess_scenarios :
  grade_guess (chars "apple") (chars "apple")
  = Ok [GREEN; GREEN; GREEN; GREEN; GREEN]
  ∧ grade_guess (chars "crane") (chars "crate")
    = Ok [GREEN; GREEN; GREEN; BLACK; GREEN]
  ∧ grade_guess (chars "arrow") (chars "rarer")
    = Ok [YELLOW; YELLOW; GREEN; BLACK; BLACK]
  ∧ grade_guess (chars "sense") (chars "seeds")
    = Ok [GREEN; GREEN; YELLOW; BLACK; YELLOW].
Proof.
  split_and!.
  - exact selftest_apple.
  - exact selftest_crane.
  - exact selftest_arrow.
  - exact selftest_sense.
Qed.

(** C4. Grading a string against itself gives [GREEN] (Exact) at every
    position. *)
Theorem grade_guess_self_exact s :
  grade_guess s s = Ok (replicate (length s) GREEN).
Proof.
  rewrite grade_guess_reference by done.
  by rewrite reference_grade_self, fmap_replicate, length_lower.
Qed.

(** C5. Grading is case-insensitive: lowering both strings first changes
    nothing, whether the grading succeeds or raises. *)
Theorem grade_guess_case_insensitive solution guess :
  grade_guess solution guess = grade_guess (lower solution) (lower guess).
Proof. unfold grade_guess. by rewrite !lower_idemp. Qed.






(** A call on the empty heap: the feedback list is created at address 0
    and the dictionary at address 1. *)
Example grade_guess_heap_sample :
  (grade_guess_heap (chars "arrow") (chars "rarer") ∅).1 = Ok 0%nat
  ∧ (grade_guess_heap (chars "arrow") (chars "rarer") ∅).2 !! 0%nat
    = Some (ListObj [YELLOW; YELLOW; GREEN; BLACK; BLACK])
  ∧ dom (grade_guess_heap (chars "arrow") (chars "rarer") ∅).2
    = {[0%nat; 1%nat]}.
Proof. vm_compute. done. Qed.

(** C10. Duplicate guess letters are served from left to right.  At a
    position that is not an exact match and guesses [c], the tile is
    [YELLOW] (Present) when fewer misplaced occurrences of [c] stand before
    it than the solution has unmatched occurrences of [c], and [BLACK]
    (Absent) otherwise; so once such a position is [BLACK], every later
    one is. *)
Theorem grade_guess_left_to_right solution guess fb :
  length solution = length guess →
  grade_guess solution guess = Ok fb →
  let sol := lower solution in
  let gs := lower guess in
  (∀ i c,
     gs !! i = Some c → sol !! i ≠ Some c →
     fb !! i
     = Some (if decide (misplaced_before c i sol gs < unmatched c sol gs)%nat
             then YELLOW else BLACK))
  ∧ (∀ i j c,
       (i < j)%nat →
       gs !! i = Some c → sol !! i ≠ Some c →
       gs !! j = Some c → sol !! j ≠ Some c →
       fb !! i = Some BLACK → fb !! j = Some BLACK).
Proof.
  intros Hlen Hgrade sol gs.
  rewrite (grade_guess_reference _ _ Hlen) in Hgrade. simplify_eq.
  assert (Hlen' : length sol = length gs)
    by (unfold sol, gs; by rewrite !length_lower).
  fold sol gs. clearbody sol gs.
  assert (Hpos : ∀ i c,
    gs !! i = Some c → sol !! i ≠ Some c →
    (glyph <$> reference_grade sol gs) !! i
    = Some (if decide (misplaced_before c i sol gs < unmatched c sol gs)%nat
            then YELLOW else BLACK)).
  { intros i c Hg Hs.
    destruct (lookup_lt_is_Some_2 sol i) as [s Hs'].
    { apply lookup_lt_Some in Hg. lia. }
    rewrite list_lookup_fmap, (reference_grade_lookup sol gs i c s Hg Hs').
    simpl. rewrite decide_False by congruence. by case_decide. }
  split; [exact Hpos|].
  intros i j c Hij Hgi Hsi Hgj Hsj Hi.
  rewrite (Hpos i c Hgi Hsi) in Hi. rewrite (Hpos j c Hgj Hsj).
  pose proof (misplaced_before_mono c sol gs i j).
  case_decides.
Qed.

Lemma grade_guess_left_to_right_witness :
  let sol := lower (chars "arrow") in
  let gs := lower (chars "rarer") in
  (∀ i c,
     gs !! i = Some c → sol !! i ≠ Some c →
     [YELLOW; YELLOW; GREEN; BLACK; BLACK] !! i
     = Some (if decide (misplaced_before c i sol gs < unmatched c sol gs)%nat
             then YELLOW else BLACK))
  ∧ (∀ i j c,
       (i < j)%nat →
       gs !! i = Some c → sol !! i ≠ Some c →
       gs !! j = Some c → sol !! j ≠ Some c →
       [YELLOW; YELLOW; GREEN; BLACK; BLACK] !! i = Some BLACK →
       [YELLOW; YELLOW; GREEN; BLACK; BLACK] !! j = Some BLACK).
Proof.
  apply (grade_guess_left_to_right (chars "arrow") (chars "rarer")).
  - reflexivity.
  - vm_compute. reflexivity.
Defined.

(** * Further properties *)

(** ** The grader, position by position *)

(** The tile of every position in closed form. *)
Lemma grade_guess_lookup solution guess fb i c x :
  grade_guess solution guess = Ok fb →
  lower guess !! i = Some c →
  lower solution !! i = Some x →
  fb !! i
  = Some (if decide (c = x) then GREEN
          else if decide (misplaced_before c i (lower solution) (lower guess)
                          < unmatched c (lower solution) (lower guess))%nat
               then YELLOW else BLACK).
Proof.
  intros Hgrade Hg Hs.
  destruct (decide (length solution = length guess)) as [Hlen|Hlen];
    [|by rewrite grade_guess_mismatch in Hgrade].
  rewrite (grade_guess_reference _ _ Hlen) in Hgrade. simplify_eq.
  rewrite list_lookup_fmap, (reference_grade_lookup _ _ i c x Hg Hs). simpl.
  by repeat case_decide.
Qed.

Lemma grade_guess_Ok_length solution guess fb :
  grade_guess solution guess = Ok fb →
  length (lower solution) = length fb ∧ length (lower guess) = length fb.
Proof.
  intros Hgrade.
  destruct (decide (length solution = length guess)) as [Hlen|Hlen];
    [|by rewrite grade_guess_mismatch in Hgrade].
  destruct (grade_guess_Ok _ _ Hlen) as (fb' & Hfb' & Hlen').
  rewrite Hfb' in Hgrade. injection Hgrade as <-.
  rewrite !length_lower. lia.
Qed.

Lemma green_positions solution guess fb i :
  grade_guess solution guess = Ok fb →
  fb !! i = Some GREEN
  ↔ ∃ c, lower guess !! i = Some c ∧ lower solution !! i = Some c.
Proof.
  intros Hgrade.
  destruct (grade_guess_Ok_length _ _ _ Hgrade) as [Hs Hg].
  split.
  - intros Hi. pose proof (lookup_lt_Some _ _ _ Hi) as Hlt.
    destruct (lookup_lt_is_Some_2 (lower guess) i) as [c Hc]; [lia|].
    destruct (lookup_lt_is_Some_2 (lower solution) i) as [x Hx]; [lia|].
    rewrite (grade_guess_lookup _ _ _ _ _ _ Hgrade Hc Hx) in Hi.
    exists c. split; [done|]. by repeat case_decide; simplify_eq.
  - intros (c & Hc & Hx).
    rewrite (grade_guess_lookup _ _ _ _ _ _ Hgrade Hc Hx).
    by rewrite decide_True.
Qed.

Lemma all_green_Forall fb : all_green fb = true ↔ Forall (λ t, t = GREEN) fb.
Proof.
  unfold all_green. induction fb as [|t fb IH]; simpl.
  { split; [constructor | done]. }
  rewrite andb_true_iff, bool_decide_eq_true, IH, Forall_cons. done.
Qed.

Lemma all_green_equal solution guess fb :
  grade_guess solution guess = Ok fb →
  all_green fb = true ↔ lower solution = lower guess.
Proof.
  intros Hgrade.
  destruct (grade_guess_Ok_length _ _ _ Hgrade) as [Hs Hg].
  rewrite all_green_Forall. split.
  - intros Hall. apply list_eq_same_length with (length fb); [done..|].
    intros i x c Hi Hx Hc.
    destruct (lookup_lt_is_Some_2 fb i Hi) as [t Ht].
    pose proof (Forall_lookup_1 _ _ _ _ Hall Ht) as ->.
    apply (green_positions _ _ _ _ Hgrade) in Ht as (c' & Hc' & Hx').
    congruence.
  - intros Heq. apply Forall_lookup. intros i t Ht.
    pose proof (lookup_lt_Some _ _ _ Ht) as Hlt.
    destruct (lookup_lt_is_Some_2 (lower guess) i) as [c Hc]; [lia|].
    assert (fb !! i = Some GREEN) as Hgreen; [|congruence].
    apply (green_positions _ _ _ _ Hgrade). exists c. by rewrite Heq.
Qed.

(** ** Counting, continued *)

Lemma yellows_cons c g t guess fb :
  yellows c (g :: guess) (t :: fb)
  = ((if decide (g = c ∧ t = YELLOW) then 1 else 0) + yellows c guess fb)%nat.
Proof.
  unfold yellows. simpl. rewrite filter_cons. simpl.
  repeat case_decide; simpl; tauto || lia.
Qed.

Lemma occurrences_zero c s : c ∉ s → occurrences c s = 0%nat.
Proof.
  induction s as [|x s IH]; [done|].
  rewrite not_elem_of_cons, occurrences_cons. intros [Hne Hs].
  rewrite decide_False by done. by rewrite IH.
Qed.

Lemma unmatched_zero c solution guess :
  c ∉ solution → unmatched c solution guess = 0%nat.
Proof.
  intros Hc. pose proof (occurrences_zero c solution Hc).
  pose proof (matched_unmatched_occurrences c solution guess). lia.
Qed.

(** An unmatched occurrence of [c] is a position of the solution. *)
Lemma unmatched_position c solution :
  ∀ guess,
    (0 < unmatched c solution guess)%nat →
    ∃ j y, solution !! j = Some c ∧ guess !! j = Some y ∧ y ≠ c.
Proof.
  induction solution as [|s solution IH]; intros [|g guess];
    try (unfold unmatched; simpl; lia).
  rewrite unmatched_cons. case_decide as Hhead.
  - destruct Hhead as [-> Hne]. intros _. by exists 0%nat, g.
  - intros Hpos. destruct (IH guess) as (j & y & ? & ? & ?); [lia|].
    by exists (S j), y.
Qed.

(** The position itself is one more misplaced occurrence. *)
Lemma misplaced_before_lt c solution :
  ∀ guess i x,
    guess !! i = Some c → solution !! i = Some x → c ≠ x →
    (misplaced_before c i solution guess < misplaced c solution guess)%nat.
Proof.
  induction solution as [|s solution IH]; intros [|g guess] [|i] x Hg Hs Hne;
    simplify_eq/=.
  - unfold misplaced_before. simpl. rewrite misplaced_cons.
    rewrite decide_True by done. unfold misplaced. simpl. lia.
  - unfold misplaced_before. simpl. rewrite !misplaced_cons.
    specialize (IH guess i x Hg Hs Hne). unfold misplaced_before in IH. lia.
Qed.

Lemma matched_misplaced_occurrences c solution :
  ∀ guess,
    length solution = length guess →
    (matched c solution guess + misplaced c solution guess
     = occurrences c guess)%nat
    ∧ (matched c solution guess + unmatched c solution guess
       = occurrences c solution)%nat.
Proof.
  induction solution as [|s solution IH]; intros [|g guess] Hlen;
    simplify_eq/=; [done|].
  rewrite matched_cons, misplaced_cons, unmatched_cons, !occurrences_cons.
  destruct (IH guess Hlen) as [IH1 IH2]. case_decides_sym.
Qed.

Lemma misplaced_swap c solution :
  ∀ guess, misplaced c solution guess = unmatched c guess solution.
Proof.
  induction solution as [|s solution IH]; intros [|g guess];
    try (unfold misplaced, unmatched; simpl; done).
  rewrite misplaced_cons, unmatched_cons, IH. case_decides_sym.
Qed.

(** The second pass gives [c] as many [YELLOW] tiles as it has misplaced
    occurrences, up to the counter. *)
Lemma reference_second_yellows c solution :
  ∀ guess r,
    0 ≤ r c →
    Z.of_nat (yellows c guess
                (glyph <$> reference_second (exact_marks solution guess) guess r))
    = Z.of_nat (misplaced c solution guess) `min` r c.
Proof.
  induction solution as [|s solution IH]; intros [|g guess] r Hr;
    try (unfold yellows, misplaced; simpl; lia).
  unfold exact_marks. simpl. fold (exact_marks solution guess).
  rewrite misplaced_cons.
  destruct (decide (g = s)) as [->|Hne]; simpl.
  - rewrite yellows_cons. refold_glyph. specialize (IH guess r Hr).
    case_decides.
  - destruct (decide (r g > 0)) as [Hpos|Hpos]; simpl; rewrite yellows_cons;
      refold_glyph.
    + assert (decr g r c = if decide (c = g) then r c - 1 else r c) as Hd
        by done.
      assert (0 ≤ decr g r c) as Hr' by (rewrite Hd; case_decide; subst; lia).
      specialize (IH guess (decr g r) Hr'). rewrite Hd in IH. case_decides.
    + specialize (IH guess r Hr). case_decides.
Qed.

Lemma grade_guess_yellows solution guess fb c :
  grade_guess solution guess = Ok fb →
  yellows c (lower guess) fb
  = (misplaced c (lower solution) (lower guess)
     `min` unmatched c (lower solution) (lower guess))%nat.
Proof.
  intros Hgrade.
  destruct (decide (length solution = length guess)) as [Hlen|Hlen];
    [|by rewrite grade_guess_mismatch in Hgrade].
  rewrite (grade_guess_reference _ _ Hlen) in Hgrade. simplify_eq.
  unfold reference_grade.
  pose proof (reference_first_exact_marks (lower solution) (lower guess)
                (λ _, 0)) as Hm.
  pose proof (reference_first_counter (lower solution) (lower guess)
                (λ _, 0) c) as Hr.
  destruct (reference_first (lower solution) (lower guess) (λ _, 0))
    as [marks r]. simpl in *. subst marks.
  pose proof (reference_second_yellows c (lower solution) (lower guess) r).
  lia.
Qed.

(** ** The round, continued *)

Lemma accepted_elem allowed len lines g :
  g ∈ accepted allowed len lines →
  lower g = g ∧ length g = len ∧ g ∈ allowed.
Proof.
  unfold accepted. rewrite list_elem_of_filter, list_elem_of_fmap.
  intros [[Hlen Hin] (line & -> & _)]. split_and!; [|done..].
  unfold normalise. apply lower_idemp.
Qed.

Lemma round_solution_lower solution w :
  lower (round_solution solution w) = round_solution solution w.
Proof.
  unfold round_solution.
  destruct (solution_or_choice solution w) as [[s|e] w']; [|done].
  apply lower_idemp.
Qed.

Lemma solves_iff sol g :
  length sol = length g → solves sol g ↔ lower sol = lower g.
Proof.
  intros Hlen. unfold solves.
  destruct (grade_guess_Ok sol g Hlen) as (fb & Hfb & _). rewrite Hfb.
  by apply all_green_equal.
Qed.

(** Among accepted guesses, the first that solves is the first that is the
    solution. *)
Lemma list_find_solves allowed sol lines n k g :
  lower sol = sol →
  list_find (solves sol) (take n (accepted allowed (length sol) lines))
  = Some (k, g)
  ↔ (k < n)%nat
    ∧ g = sol
    ∧ accepted allowed (length sol) lines !! k = Some sol
    ∧ ∀ j, (j < k)%nat → accepted allowed (length sol) lines !! j ≠ Some sol.
Proof.
  intros Hsol. set (acc := accepted allowed (length sol) lines).
  assert (Hacc : ∀ j y, acc !! j = Some y → (solves sol y ↔ y = sol)).
  { intros j y Hy. apply list_elem_of_lookup_2, accepted_elem in Hy
      as (Hlow & Hlen & _).
    rewrite solves_iff by done. rewrite Hsol, Hlow. naive_solver. }
  rewrite list_find_Some. split.
  - intros (Hk & Hsolves & Hfirst).
    apply lookup_take_Some in Hk as [Hk Hlt].
    apply (Hacc _ _ Hk) in Hsolves as ->.
    split_and!; [done..|]. intros j Hj Hj'.
    apply (Hfirst j sol); [by rewrite lookup_take_lt by lia | done |].
    by apply (Hacc _ _ Hj').
  - intros (Hlt & -> & Hk & Hfirst). split_and!.
    + by rewrite lookup_take_lt.
    + by apply (Hacc _ _ Hk).
    + intros j y Hj Hjk Hsolves. apply lookup_take_Some in Hj as [Hj _].
      apply (Hacc _ _ Hj) in Hsolves as ->. by apply (Hfirst j).
Qed.

(** The result and the output of a round, by the guesses that its input
    holds. *)
Lemma play_interactive_outcome solution w :
  let sol := round_solution solution w in
  let acc := accepted (ALLOWED w) (length sol) (stdin w) in
  let r := (play_interactive solution w).1 in
  let w' := (play_interactive solution w).2 in
  ∃ extra,
    stdout w' = stdout w ++ [Welcome; Legend max_guesses] ++ extra
    ∧ ALLOWED w' = ALLOWED w
    ∧ match list_find (solves sol) (take max_guesses acc) with
      | Some (k, _) =>
          r = Ok ()
          ∧ last extra = Some (Nice (S k))
          ∧ gradings sol (tiles_of extra) (take (S k) acc)
      | None =>
          if decide (max_guesses ≤ length acc)%nat then
            r = Ok ()
            ∧ last extra = Some (OutOfGuesses sol)
            ∧ gradings sol (tiles_of extra) (take max_guesses acc)
          else
            r = Raise EOFError ∧ gradings sol (tiles_of extra) acc
      end.
Proof.
  intros sol acc r w'.
  subst sol acc r w'. unfold round_solution, play_interactive.
  destruct (solution_or_choice_Ok solution w)
    as (s & w1 & -> & Hallowed & Hstdin & Hstdout).
  rewrite Hallowed, Hstdin, Hstdout.
  destruct (guess_loop_spec (ALLOWED w) (lower s) max_guesses 1 (stdin w)
              (print (Legend max_guesses) (print Welcome (stdout w))))
    as (extra & Hout & Hres).
  destruct (guess_loop (ALLOWED w) (lower s) (seq 1 max_guesses) (stdin w)
              (print (Legend max_guesses) (print Welcome (stdout w))))
    as [[res lines] out]. simpl in Hout, Hres. subst out.
  destruct (list_find (solves (lower s))
              (take max_guesses (accepted (ALLOWED w) (length (lower s))
                                   (stdin w)))) as [[k x]|].
  - destruct Hres as (-> & Hlast & Hgr). exists extra. simpl.
    unfold print. by rewrite <- !(assoc_L (++)).
  - destruct (decide (max_guesses ≤ length (accepted (ALLOWED w)
                        (length (lower s)) (stdin w)))%nat).
    + destruct Hres as [-> Hgr]. exists (extra ++ [OutOfGuesses (lower s)]).
      simpl. unfold print. rewrite <- !(assoc_L (++)).
      rewrite last_app, tiles_of_app. simpl.
      by rewrite (right_id_L [] (++)).
    + destruct Hres as [-> Hgr]. exists extra. simpl.
      unfold print. by rewrite <- !(assoc_L (++)).
Qed.

Lemma list_find_solves_None allowed sol lines n :
  lower sol = sol →
  list_find (solves sol) (take n (accepted allowed (length sol) lines)) = None
  ↔ sol ∉ take n (accepted allowed (length sol) lines).
Proof.
  intros Hsol. rewrite list_find_None, Forall_forall. split.
  - intros Hall Hin. apply (Hall _ Hin).
    apply solves_iff; [|done].
    apply (subseteq_take n), accepted_elem in Hin as (? & ? & _). congruence.
  - intros Hnotin g Hg Hsolves.
    pose proof Hg as Hg'. apply (subseteq_take n), accepted_elem in Hg'
      as (Hlow & Hlen & _).
    apply solves_iff in Hsolves; [|done]. congruence.
Qed.

(** How a round ends, by the place of the solution among the accepted
    guesses: it is won at attempt [k + 1], or lost after six guesses, or
    the input ends. *)
Lemma play_interactive_ending solution w :
  let sol := round_solution solution w in
  let acc := accepted (ALLOWED w) (length sol) (stdin w) in
  let r := (play_interactive solution w).1 in
  let out := stdout (play_interactive solution w).2 in
  (∃ k, (k < max_guesses)%nat
        ∧ acc !! k = Some sol
        ∧ (∀ j, (j < k)%nat → acc !! j ≠ Some sol)
        ∧ r = Ok () ∧ last out = Some (Nice (S k)))
  ∨ ((sol ∉ take max_guesses acc) ∧ (max_guesses ≤ length acc)%nat
     ∧ r = Ok () ∧ last out = Some (OutOfGuesses sol))
  ∨ ((sol ∉ acc) ∧ (length acc < max_guesses)%nat ∧ r = Raise EOFError).
Proof.
  intros sol acc r out.
  destruct (play_interactive_outcome solution w)
    as (extra & Hout & _ & Hres).
  fold sol acc r in Hres. unfold out. rewrite Hout.
  pose proof (round_solution_lower solution w) as Hsol. fold sol in Hsol.
  destruct (list_find (solves sol) (take max_guesses acc))
    as [[k g]|] eqn:Hfind.
  - apply list_find_solves in Hfind as (Hk & -> & Hacc & Hfirst); [|done].
    destruct Hres as (Hr & Hlast & _). left. exists k.
    split_and!; [done..|]. by rewrite !last_app, Hlast.
  - apply list_find_solves_None in Hfind; [|done].
    destruct (decide (max_guesses ≤ length acc)%nat) as [Hlen|Hlen].
    + destruct Hres as (Hr & Hlast & _). right. left.
      split_and!; [done..|]. by rewrite !last_app, Hlast.
    + destruct Hres as [Hr _]. right. right.
      split_and!; [|lia|done].
      fold acc in Hfind. by rewrite take_ge in Hfind by lia.
Qed.

(** ** The lines a round reads and prints *)

Lemma numbered_app a out1 :
  ∀ out2,
    numbered a (out1 ++ out2)
    ↔ numbered a out1 ∧ numbered (a + length (tiles_of out1)) out2.
Proof.
  revert a. induction out1 as [|e out1 IH]; intros a out2; simpl.
  { rewrite Nat.add_0_r. tauto. }
  destruct e; simpl; rewrite ?IH, ?Nat.add_succ_r; simpl; tauto.
Qed.

Lemma numbered_lookup out :
  ∀ a i b m,
    numbered a out →
    out !! i = Some (Prompt b m) →
    m = max_guesses ∧ b = (a + length (tiles_of (take i out)))%nat.
Proof.
  induction out as [|e out IH]; intros a [|i] b m Hnum Hi; simplify_eq/=.
  - destruct Hnum as (-> & -> & _). split; [done | lia].
  - destruct e; simpl in *;
      try (destruct (IH _ _ _ _ Hnum Hi) as [-> ->]; split; [done | lia]).
    destruct Hnum as (_ & _ & Hnum).
    by destruct (IH _ _ _ _ Hnum Hi) as [-> ->].
Qed.

Lemma prompts_of_app out1 out2 :
  prompts_of (out1 ++ out2) = (prompts_of out1 + prompts_of out2)%nat.
Proof. unfold prompts_of. by rewrite filter_app, length_app. Qed.

(** One run of the asking loop, line by line: it reads the lines up to the
    first acceptable one, prints a prompt for each line read and one more
    when the input ends, all with its attempt number, and no feedback. *)
Lemma read_guess_trace allowed len attempt lines :
  ∀ out,
    ∃ consumed extra,
      lines = consumed ++ (read_guess allowed len attempt lines out).1.2
      ∧ (read_guess allowed len attempt lines out).2 = out ++ extra
      ∧ tiles_of extra = []
      ∧ (∀ a, numbered a extra ↔ a = attempt)
      ∧ match (read_guess allowed len attempt lines out).1.1 with
        | Ok g =>
            accepted allowed len consumed = [g]
            ∧ prompts_of extra = length consumed
        | Raise _ =>
            accepted allowed len consumed = []
            ∧ prompts_of extra = S (length consumed)
        end.
Proof.
  induction lines as [|line lines IH]; intros out; simpl.
  { exists [], [Prompt attempt max_guesses]. simpl.
    split_and!; try done.
    intros a. split; [by intros (-> & _) | by intros ->]. }
  unfold print.
  destruct (decide (length (lower (strip line)) ≠ len)) as [Hlen|Hlen].
  { destruct (IH ((out ++ [Prompt attempt max_guesses]) ++ [WrongLength len]))
      as (consumed & extra & Hlines & Hout & Htiles & Hnum & Hres).
    exists (line :: consumed),
           ([Prompt attempt max_guesses; WrongLength len] ++ extra).
    rewrite Hout, tiles_of_app, Htiles, accepted_cons, prompts_of_app.
    unfold normalise. rewrite decide_False by tauto. simpl.
    split_and!; [by f_equal | by rewrite <- !(assoc_L (++)) | done | |].
    - intros a. split; [by intros (-> & _)|].
      intros ->. split_and!; [done..|]. by apply Hnum.
    - destruct (read_guess _ _ _ _ _) as [[[g|e] ?] ?]; simpl in *;
        destruct Hres as [-> ->]; done. }
  destruct (decide (lower (strip line) ∉ allowed)) as [Hin|Hin].
  { destruct (IH ((out ++ [Prompt attempt max_guesses]) ++ [NotAllowed]))
      as (consumed & extra & Hlines & Hout & Htiles & Hnum & Hres).
    exists (line :: consumed),
           ([Prompt attempt max_guesses; NotAllowed] ++ extra).
    rewrite Hout, tiles_of_app, Htiles, accepted_cons, prompts_of_app.
    unfold normalise. rewrite decide_False by tauto. simpl.
    split_and!; [by f_equal | by rewrite <- !(assoc_L (++)) | done | |].
    - intros a. split; [by intros (-> & _)|].
      intros ->. split_and!; [done..|]. by apply Hnum.
    - destruct (read_guess _ _ _ _ _) as [[[g|e] ?] ?]; simpl in *;
        destruct Hres as [-> ->]; done. }
  exists [line], [Prompt attempt max_guesses]. simpl.
  apply dec_stable in Hlen, Hin.
  rewrite accepted_cons. unfold normalise. rewrite decide_True by done.
  split_and!; try done.
  intros a. split; [by intros (-> & _) | by intros ->].
Qed.

Lemma accepted_app allowed len lines1 lines2 :
  accepted allowed len (lines1 ++ lines2)
  = accepted allowed len lines1 ++ accepted allowed len lines2.
Proof. unfold accepted. by rewrite fmap_app, filter_app. Qed.

(** The loop over the attempts, line by line. *)
Lemma guess_loop_trace allowed sol n :
  ∀ a lines out,
    ∃ consumed extra,
      lines = consumed ++ (guess_loop allowed sol (seq a n) lines out).1.2
      ∧ (guess_loop allowed sol (seq a n) lines out).2 = out ++ extra
      ∧ numbered a extra
      ∧ gradings sol (tiles_of extra) (accepted allowed (length sol) consumed)
      ∧ prompts_of extra
        = (length consumed
           + match (guess_loop allowed sol (seq a n) lines out).1.1 with
             | Ok _ => 0
             | Raise _ => 1
             end)%nat.
Proof.
  induction n as [|n IH]; intros a lines out; simpl.
  { exists [], []. rewrite (right_id_L [] (++)).
    split_and!; try done. constructor. }
  destruct (read_guess_trace allowed (length sol) a lines out)
    as (consumed1 & extra1 & Hlines1 & Hout1 & Htiles1 & Hnum1 & Hres1).
  destruct (read_guess allowed (length sol) a lines out)
    as [[[g|e] lines1] out1]; simpl in *; subst out1.
  2: { destruct Hres1 as [Hacc1 Hprompts1].
       exists consumed1, extra1. simpl. rewrite Htiles1, Hacc1.
       split_and!; [done | done | by apply Hnum1 | constructor | lia]. }
  destruct Hres1 as [Hacc1 Hprompts1].
  assert (length sol = length g) as Hlen.
  { assert (g ∈ accepted allowed (length sol) consumed1) as Hg
      by (rewrite Hacc1; apply list_elem_of_here).
    by apply accepted_elem in Hg as (_ & -> & _). }
  destruct (grade_guess_Ok sol g Hlen) as (fb & Hfb & _). rewrite Hfb.
  destruct (all_green fb) eqn:Hgreen; simpl.
  - exists consumed1, (extra1 ++ [Tiles fb; Nice a]). unfold print.
    rewrite tiles_of_app, Htiles1, Hacc1, prompts_of_app, numbered_app.
    rewrite Htiles1. simpl.
    split_and!; [done | by rewrite <- !(assoc_L (++)) | by apply Hnum1
                | done | by repeat constructor | ].
    unfold prompts_of at 2. simpl. lia.
  - destruct (IH (S a) lines1 (print (Tiles fb) (out ++ extra1)))
      as (consumed2 & extra2 & Hlines2 & Hout2 & Hnum2 & Hgr2 & Hprompts2).
    exists (consumed1 ++ consumed2), (extra1 ++ Tiles fb :: extra2).
    unfold print in *.
    rewrite tiles_of_app, Htiles1, accepted_app, Hacc1, prompts_of_app,
      numbered_app, Htiles1. simpl.
    split_and!.
    + by rewrite <- (assoc_L (++)), <- Hlines2.
    + by rewrite Hout2, <- !(assoc_L (++)).
    + by apply Hnum1.
    + by rewrite Nat.add_0_r.
    + by constructor.
    + change (Tiles fb :: extra2) with ([Tiles fb] ++ extra2).
      rewrite prompts_of_app, Hprompts2, length_app.
      unfold prompts_of at 2. simpl. lia.
Qed.

(** A round, line by line. *)
Lemma play_interactive_trace solution w :
  let sol := round_solution solution w in
  let r := (play_interactive solution w).1 in
  let w' := (play_interactive solution w).2 in
  ∃ consumed out,
    stdin w = consumed ++ stdin w'
    ∧ stdout w' = stdout w ++ out
    ∧ numbered 1 out
    ∧ gradings sol (tiles_of out) (accepted (ALLOWED w) (length sol) consumed)
    ∧ prompts_of out
      = (length consumed + match r with Ok _ => 0 | Raise _ => 1 end)%nat.
Proof.
  intros sol r w'. subst sol r w'. unfold round_solution, play_interactive.
  destruct (solution_or_choice_Ok solution w)
    as (s & w1 & -> & Hallowed & Hstdin & Hstdout).
  rewrite Hallowed, Hstdin, Hstdout.
  destruct (guess_loop_trace (ALLOWED w) (lower s) max_guesses 1 (stdin w)
              (print (Legend max_guesses) (print Welcome (stdout w))))
    as (consumed & extra & Hlines & Hout & Hnum & Hgr & Hprompts).
  destruct (guess_loop (ALLOWED w) (lower s) (seq 1 max_guesses) (stdin w)
              (print (Legend max_guesses) (print Welcome (stdout w))))
    as [[res lines] out]. simpl in *. subst out. unfold print.
  destruct res as [[|]|e]; simpl.
  - exists consumed, ([Welcome; Legend max_guesses] ++ extra).
    split_and!; [done | by rewrite <- !(assoc_L (++)) | done..].
  - exists consumed, ([Welcome; Legend max_guesses] ++ extra
                      ++ [OutOfGuesses (lower s)]).
    split_and!; [done | by rewrite <- !(assoc_L (++)) | | |].
    + simpl. apply numbered_app. split; [done|]. by simpl.
    + simpl. rewrite tiles_of_app. simpl. by rewrite (right_id_L [] (++)).
    + change (prompts_of (extra ++ [OutOfGuesses (lower s)])
              = (length consumed + 0)%nat).
      rewrite prompts_of_app, Hprompts. unfold prompts_of. simpl. lia.
  - exists consumed, ([Welcome; Legend max_guesses] ++ extra).
    split_and!; [done | by rewrite <- !(assoc_L (++)) | done..].
Qed.

(** ** The allowed set of the module *)

Lemma grown_refl allowed : grown allowed allowed.
Proof. split; [done | by left]. Qed.

Lemma grown_trans a1 a2 a3 : grown a1 a2 → grown a2 a3 → grown a1 a3.
Proof.
  intros [Hsub1 Hnew1] [Hsub2 Hnew2]. split; [set_solver|].
  intros w Hw. destruct (Hnew2 w Hw) as [Hw2|?]; [|by right].
  by apply Hnew1.
Qed.

Lemma grown_foldl {X} (f : gset (list ascii) → X → gset (list ascii)) xs :
  (∀ allowed x, grown allowed (f allowed x)) →
  ∀ allowed, grown allowed (foldl f allowed xs).
Proof.
  intros Hf. induction xs as [|x xs IH]; intros allowed; simpl.
  { apply grown_refl. }
  eapply grown_trans; [apply Hf | apply IH].
Qed.

Lemma add_word_grown allowed line : grown allowed (add_word allowed line).
Proof.
  unfold add_word. case_decide as Hlen; [|apply grown_refl].
  destruct (isalpha (lower (strip line))) eqn:Halpha; [|apply grown_refl].
  split; [set_solver|]. intros w [->%elem_of_singleton|?]%elem_of_union.
  - right. split_and!; [done..|]. apply lower_idemp.
  - by left.
Qed.

Lemma add_file_grown pf allowed p : grown allowed (add_file pf allowed p).
Proof.
  unfold add_file.
  destruct (read_file pf p); apply grown_foldl, add_word_grown.
Qed.

Lemma augment_grown pf allowed :
  grown allowed (_augment_from_system_dict pf allowed).2.
Proof.
  unfold _augment_from_system_dict.
  set (allowed1 := foldl _ allowed dict_paths).
  assert (grown allowed allowed1) as H1.
  { apply grown_foldl. intros a p.
    destruct (path_exists pf p); [apply add_file_grown | apply grown_refl]. }
  destruct (path_isdir pf _); [|done].
  destruct (listdir pf _) as [names|]; [|done]. simpl.
  eapply grown_trans; [exact H1|].
  apply grown_foldl. intros a fname. simpl.
  destruct (path_isfile pf _); [apply add_file_grown | apply grown_refl].
Qed.

Lemma ALLOWED_static_words w : w ∈ ALLOWED_static → five_letter_word w.
Proof.
  unfold ALLOWED_static.
  rewrite elem_of_union, !elem_of_list_to_set, <- elem_of_app.
  revert w. apply Forall_forall.
  apply (bool_decide_unpack _). vm_compute. done.
Qed.

Lemma SOLUTIONS_ALLOWED_static s : s ∈ SOLUTIONS → s ∈ ALLOWED_static.
Proof.
  intros Hs. unfold ALLOWED_static.
  apply elem_of_union_l, elem_of_list_to_set, Hs.
Qed.

(** ** The self-test and the command line *)

Lemma _selftest_passes : _selftest = (Return (), [AllSelfTestsPassed]).
Proof. vm_compute. reflexivity. Qed.

(** [main] without [--selftest] and with no word to refuse is the round. *)
Lemma main_is_play pf a w :
  selftest a = false →
  (∀ wd, forced_word a = Some wd → length wd = 5%nat) →
  main pf a w = main_play (forced_word a) (seed_random pf a w).
Proof.
  unfold main, forced_word. intros -> Hvalid.
  destruct (word a) as [[|c s]|]; [done| |done].
  by rewrite decide_False by (rewrite (Hvalid _ eq_refl); lia).
Qed.

Lemma main_refuses pf a w wd :
  selftest a = false →
  forced_word a = Some wd →
  length wd ≠ 5%nat →
  main pf a w = (Return 2, seed_random pf a w, [WordMustBeFive]).
Proof.
  unfold main, forced_word. intros -> Hwd Hlen.
  destruct (word a) as [[|c s]|]; [done| |done].
  injection Hwd as <-. by rewrite decide_True.
Qed.

(** How the round inside [main] ends. *)
Lemma main_play_ending forced w :
  let sol := round_solution forced w in
  let acc := accepted (ALLOWED w) (length sol) (stdin w) in
  let r := main_play forced w in
  (∃ k, (k < max_guesses)%nat
        ∧ acc !! k = Some sol
        ∧ r.1.1 = Return 0 ∧ last (printed r) = Some (Game (Nice (S k))))
  ∨ ((sol ∉ take max_guesses acc) ∧ (max_guesses ≤ length acc)%nat
     ∧ r.1.1 = Return 0 ∧ last (printed r) = Some (Game (OutOfGuesses sol)))
  ∨ ((sol ∉ acc) ∧ (length acc < max_guesses)%nat
     ∧ r.1.1 = Return 1 ∧ last (printed r) = Some Goodbye).
Proof.
  intros sol acc r. subst r. unfold main_play, printed.
  pose proof (play_interactive_ending forced w) as Hend.
  cbv zeta in Hend. fold sol acc in Hend.
  destruct (play_interactive forced w) as [res w']. simpl in Hend.
  destruct Hend as [(k & Hk & Hacc & _ & -> & Hlast)
                   |[(Hnotin & Hlen & -> & Hlast)|(Hnotin & Hlen & ->)]];
    simpl; rewrite ?(right_id_L [] (++)), ?fmap_last, ?Hlast.
  - left. by exists k.
  - right. by left.
  - right. right. split_and!; [done..|]. by rewrite last_snoc.
Qed.

(** The three ways of [main]. *)
Lemma main_cases pf a w :
  let w0 := seed_random pf a w in
  (selftest a = true ∧ main pf a w = (Return 0, w0, [AllSelfTestsPassed]))
  ∨ (selftest a = false
     ∧ (∃ wd, forced_word a = Some wd ∧ length wd ≠ 5%nat)
     ∧ main pf a w = (Return 2, w0, [WordMustBeFive]))
  ∨ (selftest a = false
     ∧ (∀ wd, forced_word a = Some wd → length wd = 5%nat)
     ∧ main pf a w = main_play (forced_word a) w0).
Proof.
  intros w0. destruct (selftest a) eqn:Hself.
  { left. split; [done|]. unfold main. by rewrite Hself, _selftest_passes. }
  right. destruct (forced_word a) as [wd|] eqn:Hwd.
  - destruct (decide (length wd = 5%nat)) as [Hlen|Hlen].
    + right. split_and!; [done | by intros ? [= <-] |].
      rewrite <- Hwd. apply main_is_play; [done|].
      rewrite Hwd. by intros ? [= <-].
    + left. split_and!; [done | by exists wd |].
      by apply (main_refuses _ _ _ wd).
  - right. split_and!; [done | done |].
    rewrite <- Hwd. apply main_is_play; [done|]. by rewrite Hwd.
Qed.

Lemma forced_word_Some a wd :
  forced_word a = Some wd
  ↔ ∃ s, word a = Some s ∧ s ≠ [] ∧ wd = lower (strip s).
Proof.
  unfold forced_word. destruct (word a) as [[|c s]|]; split.
  - done.
  - by intros (s & [= <-] & ? & _).
  - intros [= <-]. by exists (c :: s).
  - by intros (s' & [= <-] & _ & ->).
  - done.
  - by intros (s & ? & _).
Qed.

Lemma random_choice_elem seq w s w' :
  random_choice seq w = (Ok s, w') → s ∈ seq.
Proof.
  unfold random_choice.
  destruct (seq !! _) as [x|] eqn:Hx; [|done].
  intros [= <- _]. by eapply list_elem_of_lookup_2.
Qed.

(** Without a forced word the solution of the round is one of [SOLUTIONS],
    which are in lower case and allowed once the module is loaded. *)
Lemma round_solution_drawn pf w :
  ALLOWED w = ALLOWED_loaded pf →
  round_solution None w ∈ ALLOWED w.
Proof.
  intros Hallowed. unfold round_solution. simpl.
  destruct (random_choice_SOLUTIONS w) as [s Hs]. rewrite Hs.
  apply random_choice_elem, SOLUTIONS_ALLOWED_static in Hs.
  destruct (ALLOWED_static_words s Hs) as (_ & _ & ->).
  rewrite Hallowed. by apply (augment_grown pf ALLOWED_static).
Qed.

(** ** Counting the coloured tiles *)

(** The tiles on [c] that are not [BLACK] are the exact matches of [c] and
    the [YELLOW] tiles on [c]. *)
Lemma reference_second_coloured c solution :
  ∀ guess r,
    credited c guess
      (glyph <$> reference_second (exact_marks solution guess) guess r)
    = (matched c solution guess
       + yellows c guess
           (glyph <$> reference_second (exact_marks solution guess) guess r))%nat.
Proof.
  induction solution as [|s solution IH]; intros [|g guess] r;
    try (unfold credited, matched, yellows; simpl; lia).
  unfold exact_marks. simpl. fold (exact_marks solution guess).
  rewrite matched_cons.
  destruct (decide (g = s)) as [->|Hne]; simpl.
  - rewrite credited_cons, yellows_cons. refold_glyph.
    specialize (IH guess r). case_decides_sym.
  - destruct (decide (r g > 0)) as [Hpos|Hpos]; simpl;
      rewrite credited_cons, yellows_cons; refold_glyph.
    + specialize (IH guess (decr g r)). case_decides_sym.
    + specialize (IH guess r). case_decides_sym.
Qed.

Lemma grade_guess_coloured solution guess fb c :
  grade_guess solution guess = Ok fb →
  credited c (lower guess) fb
  = (occurrences c (lower guess) `min` occurrences c (lower solution))%nat.
Proof.
  intros Hgrade.
  pose proof (grade_guess_yellows _ _ _ c Hgrade) as Hyellow.
  destruct (decide (length solution = length guess)) as [Hlen|Hlen];
    [|by rewrite grade_guess_mismatch in Hgrade].
  rewrite (grade_guess_reference _ _ Hlen) in Hgrade. simplify_eq.
  destruct (matched_misplaced_occurrences c (lower solution) (lower guess))
    as [Hguess Hsol]; [by rewrite !length_lower|].
  revert Hyellow. unfold reference_grade.
  pose proof (reference_first_exact_marks (lower solution) (lower guess)
                (λ _, 0)) as Hm.
  destruct (reference_first (lower solution) (lower guess) (λ _, 0))
    as [marks r]. simpl in *. subst marks.
  rewrite reference_second_coloured. lia.
Qed.

(** ** The properties *)

(** X1. A tile is [GREEN] exactly at the positions where the lowered guess
    and the lowered solution have the same character. *)
Theorem grade_guess_green_iff solution guess fb i :
  grade_guess solution guess = Ok fb →
  fb !! i = Some GREEN
  ↔ ∃ c, lower guess !! i = Some c ∧ lower solution !! i = Some c.
Proof. apply green_positions. Qed.

Lemma grade_guess_green_iff_witness :
  [YELLOW; YELLOW; GREEN; BLACK; BLACK] !! 2%nat = Some GREEN
  ↔ ∃ c, lower (chars "rarer") !! 2%nat = Some c
         ∧ lower (chars "arrow") !! 2%nat = Some c.
Proof.
  apply (grade_guess_green_iff (chars "arrow") (chars "rarer")).
  vm_compute. reflexivity.
Defined.

(** X2. The feedback is all [GREEN] exactly when the lowered guess is the
    lowered solution. *)
Theorem grade_guess_all_green_iff solution guess fb :
  grade_guess solution guess = Ok fb →
  all_green fb = true ↔ lower solution = lower guess.
Proof. apply all_green_equal. Qed.

Lemma grade_guess_all_green_iff_witness :
  all_green [GREEN; GREEN; GREEN; GREEN; GREEN] = true
  ↔ lower (chars "Apple") = lower (chars "APPLE").
Proof.
  apply (grade_guess_all_green_iff (chars "Apple") (chars "APPLE")).
  vm_compute. reflexivity.
Defined.

(** X3. A guessed character that the lowered solution does not contain gets
    a [BLACK] tile. *)
Theorem grade_guess_absent_black solution guess fb i c :
  grade_guess solution guess = Ok fb →
  lower guess !! i = Some c →
  c ∉ lower solution →
  fb !! i = Some BLACK.
Proof.
  intros Hgrade Hc Hnotin.
  destruct (grade_guess_Ok_length _ _ _ Hgrade) as [Hs Hg].
  destruct (lookup_lt_is_Some_2 (lower solution) i) as [x Hx].
  { apply lookup_lt_Some in Hc. lia. }
  rewrite (grade_guess_lookup _ _ _ _ _ _ Hgrade Hc Hx).
  rewrite unmatched_zero by done.
  rewrite decide_False; [by rewrite decide_False by lia|].
  intros ->. apply Hnotin. by eapply list_elem_of_lookup_2.
Qed.

Lemma grade_guess_absent_black_witness :
  [GREEN; GREEN; GREEN; BLACK; GREEN] !! 3%nat = Some BLACK.
Proof.
  apply (grade_guess_absent_black (chars "crane") (chars "crate") _ 3 "t").
  - vm_compute. reflexivity.
  - reflexivity.
  - vm_compute. intros H. by repeat (apply elem_of_cons in H as [?|H]; [done|]);
      apply elem_of_nil in H.
Defined.

(** X4. A [YELLOW] tile says that the guessed character stands at another
    position of the lowered solution, one where the guess has a different
    character. *)
Theorem grade_guess_yellow_elsewhere solution guess fb i c :
  grade_guess solution guess = Ok fb →
  lower guess !! i = Some c →
  fb !! i = Some YELLOW →
  ∃ j, j ≠ i ∧ lower solution !! j = Some c ∧ lower guess !! j ≠ Some c.
Proof.
  intros Hgrade Hc Hyellow.
  destruct (grade_guess_Ok_length _ _ _ Hgrade) as [Hs Hg].
  destruct (lookup_lt_is_Some_2 (lower solution) i) as [x Hx].
  { apply lookup_lt_Some in Hc. lia. }
  rewrite (grade_guess_lookup _ _ _ _ _ _ Hgrade Hc Hx) in Hyellow.
  destruct (decide (c = x)); [done|].
  destruct (decide (misplaced_before c i (lower solution) (lower guess)
                    < unmatched c (lower solution) (lower guess))%nat)
    as [Hlt|]; [|done].
  destruct (unmatched_position c (lower solution) (lower guess))
    as (j & y & Hj & Hy & Hne); [lia|].
  exists j. split_and!; [congruence | done | congruence].
Qed.

Lemma grade_guess_yellow_elsewhere_witness :
  ∃ j, j ≠ 0%nat ∧ lower (chars "arrow") !! j = Some "r"%char
       ∧ lower (chars "rarer") !! j ≠ Some "r"%char.
Proof.
  apply (grade_guess_yellow_elsewhere (chars "arrow") (chars "rarer")
           [YELLOW; YELLOW; GREEN; BLACK; BLACK]).
  - vm_compute. reflexivity.
  - reflexivity.
  - reflexivity.
Defined.

(** X5. For every character [c], the [YELLOW] tiles on guessed [c] are as
    many as the smaller of two numbers: the positions where the guess has
    [c] and the solution another character, and the positions where the
    solution has [c] and the guess another character. *)
Theorem grade_guess_yellow_count solution guess fb c :
  grade_guess solution guess = Ok fb →
  yellows c (lower guess) fb
  = (misplaced c (lower solution) (lower guess)
     `min` unmatched c (lower solution) (lower guess))%nat.
Proof. apply grade_guess_yellows. Qed.

Lemma grade_guess_yellow_count_witness :
  yellows "r" (lower (chars "rarer")) [YELLOW; YELLOW; GREEN; BLACK; BLACK]
  = (misplaced "r" (lower (chars "arrow")) (lower (chars "rarer"))
     `min` unmatched "r" (lower (chars "arrow")) (lower (chars "rarer")))%nat.
Proof.
  apply (grade_guess_yellow_count (chars "arrow") (chars "rarer")).
  vm_compute. reflexivity.
Defined.

(** X6. For every character [c], the tiles on guessed [c] that are
    [GREEN] or [YELLOW] are as many as the smaller of the number of [c] in
    the lowered guess and the number of [c] in the lowered solution. *)
Theorem grade_guess_coloured_count solution guess fb c :
  grade_guess solution guess = Ok fb →
  credited c (lower guess) fb
  = (occurrences c (lower guess) `min` occurrences c (lower solution))%nat.
Proof. apply grade_guess_coloured. Qed.

Lemma grade_guess_coloured_count_witness :
  credited "e" (lower (chars "seeds")) [GREEN; GREEN; YELLOW; BLACK; YELLOW]
  = (occurrences "e" (lower (chars "seeds"))
     `min` occurrences "e" (lower (chars "sense")))%nat.
Proof.
  apply (grade_guess_coloured_count (chars "sense") (chars "seeds")).
  vm_compute. reflexivity.
Defined.

(** X7. A character that the lowered guess holds at most as often as the
    lowered solution never gets a [BLACK] tile; so a guess that is a
    rearrangement of the solution gets no [BLACK] tile at all. *)
Theorem grade_guess_no_black solution guess fb :
  grade_guess solution guess = Ok fb →
  (∀ i c,
     lower guess !! i = Some c →
     (occurrences c (lower guess) ≤ occurrences c (lower solution))%nat →
     fb !! i ≠ Some BLACK)
  ∧ (lower guess ≡ₚ lower solution → BLACK ∉ fb).
Proof.
  intros Hgrade.
  destruct (grade_guess_Ok_length _ _ _ Hgrade) as [Hs Hg].
  assert (Hpos : ∀ i c,
    lower guess !! i = Some c →
    (occurrences c (lower guess) ≤ occurrences c (lower solution))%nat →
    fb !! i ≠ Some BLACK).
  { intros i c Hc Hocc.
    destruct (lookup_lt_is_Some_2 (lower solution) i) as [x Hx].
    { apply lookup_lt_Some in Hc. lia. }
    rewrite (grade_guess_lookup _ _ _ _ _ _ Hgrade Hc Hx).
    destruct (decide (c = x)); [done|].
    pose proof (misplaced_before_lt c _ _ _ _ Hc Hx ltac:(done)).
    destruct (matched_misplaced_occurrences c (lower solution) (lower guess))
      as [Hguess Hsol]; [lia|].
    rewrite decide_True by lia. done. }
  split; [exact Hpos|].
  intros Hperm [i Hi]%list_elem_of_lookup_1.
  destruct (lookup_lt_is_Some_2 (lower guess) i) as [c Hc].
  { apply lookup_lt_Some in Hi. lia. }
  apply (Hpos i c Hc); [|done].
  unfold occurrences. by rewrite Hperm.
Qed.

Lemma grade_guess_no_black_witness :
  (∀ i c,
     lower (chars "TRACE") !! i = Some c →
     (occurrences c (lower (chars "TRACE"))
      ≤ occurrences c (lower (chars "crate")))%nat →
     [YELLOW; GREEN; GREEN; YELLOW; GREEN] !! i ≠ Some BLACK)
  ∧ (lower (chars "TRACE") ≡ₚ lower (chars "crate") →
     BLACK ∉ [YELLOW; GREEN; GREEN; YELLOW; GREEN]).
Proof.
  apply (grade_guess_no_black (chars "crate") (chars "TRACE")).
  vm_compute. reflexivity.
Defined.

(** X8. Swapping solution and guess keeps the [GREEN] positions, and for
    every character the number of [YELLOW] tiles on it. *)
Theorem grade_guess_swap solution guess fb fb' :
  grade_guess solution guess = Ok fb →
  grade_guess guess solution = Ok fb' →
  (∀ i, fb !! i = Some GREEN ↔ fb' !! i = Some GREEN)
  ∧ (∀ c, yellows c (lower guess) fb = yellows c (lower solution) fb').
Proof.
  intros Hgrade Hgrade'. split.
  - intros i. rewrite (green_positions _ _ _ _ Hgrade).
    rewrite (green_positions _ _ _ _ Hgrade').
    split; intros (c & ? & ?); by exists c.
  - intros c. rewrite (grade_guess_yellows _ _ _ _ Hgrade).
    rewrite (grade_guess_yellows _ _ _ _ Hgrade').
    rewrite !misplaced_swap. lia.
Qed.

Lemma grade_guess_swap_witness :
  (∀ i, [YELLOW; YELLOW; GREEN; BLACK; BLACK] !! i = Some GREEN
        ↔ [YELLOW; YELLOW; GREEN; BLACK; BLACK] !! i = Some GREEN)
  ∧ (∀ c, yellows c (lower (chars "rarer")) [YELLOW; YELLOW; GREEN; BLACK; BLACK]
          = yellows c (lower (chars "arrow"))
              [YELLOW; YELLOW; GREEN; BLACK; BLACK]).
Proof.
  apply (grade_guess_swap (chars "arrow") (chars "rarer")).
  - vm_compute. reflexivity.
  - vm_compute. reflexivity.
Defined.

(** X9. A round is won exactly by typing the solution: it returns with the
    announcement of a win at attempt [k + 1] exactly when the accepted guess
    number [k] (from 0, below six) is the first that is the solution; it
    returns revealing the solution exactly when the input holds six accepted
    guesses and none of the first six is the solution. *)
Theorem play_interactive_won_iff solution w :
  let sol := round_solution solution w in
  let acc := accepted (ALLOWED w) (length sol) (stdin w) in
  let r := (play_interactive solution w).1 in
  let out := stdout (play_interactive solution w).2 in
  (∀ k,
     r = Ok () ∧ last out = Some (Nice (S k))
     ↔ (k < max_guesses)%nat
       ∧ acc !! k = Some sol
       ∧ ∀ j, (j < k)%nat → acc !! j ≠ Some sol)
  ∧ (r = Ok () ∧ last out = Some (OutOfGuesses sol)
     ↔ (max_guesses ≤ length acc)%nat ∧ (sol ∉ take max_guesses acc)).
Proof.
  intros sol acc r out.
  pose proof (play_interactive_ending solution w) as Hend.
  cbv zeta in Hend. subst sol acc r out.
  destruct Hend as [(k' & Hk' & Hacc & Hfirst & Hr & Hlast)
                   |[(Hnotin & Hlen & Hr & Hlast)|(Hnotin & Hlen & Hr)]].
  - split.
    + intros k. split.
      * intros [_ Hlast']. rewrite Hlast in Hlast'. by simplify_eq.
      * intros (Hk & Hacck & Hfirstk).
        assert (k = k') as ->; [|done].
        destruct (Nat.lt_trichotomy k k') as [Hlt|[Heq|Hlt]]; [|done|].
        -- by destruct (Hfirst k Hlt).
        -- by destruct (Hfirstk k' Hlt).
    + split.
      * intros [_ Hlast']. rewrite Hlast in Hlast'. by simplify_eq.
      * intros [_ Hnotin]. destruct Hnotin. apply elem_of_take. eauto.
  - split.
    + intros k. split.
      * intros [_ Hlast']. rewrite Hlast in Hlast'. by simplify_eq.
      * intros (Hk & Hacck & _). destruct Hnotin. apply elem_of_take. eauto.
    + done.
  - split.
    + intros k. split.
      * intros [Hr' _]. rewrite Hr in Hr'. by simplify_eq.
      * intros (Hk & Hacck & _). destruct Hnotin.
        by eapply list_elem_of_lookup_2.
    + split.
      * intros [Hr' _]. rewrite Hr in Hr'. by simplify_eq.
      * intros [? _]. lia.
Qed.


(** X11. The attempt number that a round shows in a prompt is one more
    than the number of feedback lines printed before it, and the maximum
    shown is six: a line that is rejected does not advance the number. *)
Theorem play_interactive_prompt_numbers solution w :
  ∃ out,
    stdout (play_interactive solution w).2 = stdout w ++ out
    ∧ ∀ i attempt m,
        out !! i = Some (Prompt attempt m) →
        m = 6%nat ∧ attempt = S (length (tiles_of (take i out))).
Proof.
  destruct (play_interactive_trace solution w)
    as (consumed & out & _ & Hout & Hnum & _).
  exists out. split; [done|]. intros i attempt m Hi.
  by destruct (numbered_lookup _ _ _ _ _ Hnum Hi) as [-> ->].
Qed.

(** X12. A round reads its input in order and leaves the rest unread: the
    lines it read are a prefix of the input, it printed one prompt for each
    of them, and one more when it ended on the end of the input; and the
    feedback lines it printed are the gradings of the accepted guesses among
    the lines it read. *)
Theorem play_interactive_reads solution w :
  let sol := round_solution solution w in
  let r := (play_interactive solution w).1 in
  let w' := (play_interactive solution w).2 in
  ∃ consumed out,
    stdin w = consumed ++ stdin w'
    ∧ stdout w' = stdout w ++ out
    ∧ prompts_of out
      = (length consumed + match r with Ok _ => 0 | Raise _ => 1 end)%nat
    ∧ gradings sol (tiles_of out) (accepted (ALLOWED w) (length sol) consumed).
Proof.
  intros sol r w'.
  destruct (play_interactive_trace solution w)
    as (consumed & out & Hin & Hout & _ & Hgr & Hprompts).
  by exists consumed, out.
Qed.

(** X13. Whatever the files and directories hold, and also when
    [os.listdir] fails, [_augment_from_system_dict] removes no word from
    the allowed set, and every word it adds has five characters, all of
    them letters, and is in lower case. *)
Theorem augment_adds_five_letter_words pf allowed :
  let allowed' := (_augment_from_system_dict pf allowed).2 in
  allowed ⊆ allowed'
  ∧ ∀ w, w ∈ allowed' →
         w ∈ allowed ∨ (length w = 5%nat ∧ isalpha w = true ∧ lower w = w).
Proof. apply augment_grown. Qed.

(** X14. Once the module is loaded, on every platform, each allowed word has
    five characters, all of them letters, and is in lower case, and each
    word of [SOLUTIONS] is allowed. *)
Theorem ALLOWED_loaded_words pf :
  (∀ w, w ∈ ALLOWED_loaded pf →
        length w = 5%nat ∧ isalpha w = true ∧ lower w = w)
  ∧ (∀ s, s ∈ SOLUTIONS → s ∈ ALLOWED_loaded pf).
Proof.
  destruct (augment_grown pf ALLOWED_static) as [Hsub Hnew]. split.
  - intros w Hw. destruct (Hnew w Hw) as [Hstatic|?]; [|done].
    by apply ALLOWED_static_words.
  - intros s Hs. by apply Hsub, SOLUTIONS_ALLOWED_static.
Qed.

(** X15. [main] raises nothing and does not call [sys.exit]: it returns 0,
    1 or 2.  With [--selftest] it returns 0, having printed that all
    self-tests passed and read no input. *)
Theorem main_returns pf a w :
  (∃ code, (main pf a w).1.1 = Return code ∧ (code = 0 ∨ code = 1 ∨ code = 2))
  ∧ (selftest a = true →
     main pf a w = (Return 0, seed_random pf a w, [AllSelfTestsPassed])).
Proof.
  destruct (main_cases pf a w)
    as [[Hself ->]|[(Hself & _ & ->)|(Hself & Hvalid & ->)]].
  - split; [|done]. exists 0. by split; [|left].
  - split; [|by rewrite Hself]. exists 2. by split; [|right; right].
  - split; [|by rewrite Hself].
    destruct (main_play_ending (forced_word a) (seed_random pf a w))
      as [(k & _ & _ & -> & _)|[(_ & _ & -> & _)|(_ & _ & -> & _)]].
    + exists 0. by split; [|left].
    + exists 0. by split; [|left].
    + exists 1. by split; [|right; left].
Qed.





(** X18. Typing the solution wins.  When the allowed set is the one the
    module loaded, on any platform, and no word is forced, a first line of
    input that stands for the drawn solution makes [main] return 0 with the
    announcement of a win at attempt 1 as its last line. *)
Theorem main_solution_wins pf a w line rest :
  ALLOWED w = ALLOWED_loaded pf →
  selftest a = false →
  forced_word a = None →
  stdin w = line :: rest →
  normalise line = round_solution None (seed_random pf a w) →
  (main pf a w).1.1 = Return 0
  ∧ last (printed (main pf a w)) = Some (Game (Nice 1)).
Proof.
  intros Hallowed Hself Hforced Hstdin Hline.
  rewrite (main_is_play pf a w Hself) by (by rewrite Hforced).
  rewrite Hforced. set (w0 := seed_random pf a w) in *.
  assert (ALLOWED w0 = ALLOWED w ∧ stdin w0 = stdin w) as [Ha Hs]
    by (unfold w0, seed_random; by destruct (seed a)).
  pose proof (round_solution_drawn pf w0 ltac:(congruence)) as Hdrawn.
  pose proof (main_play_ending None w0) as Hend. cbv zeta in Hend.
  assert (accepted (ALLOWED w0) (length (round_solution None w0)) (stdin w0)
          !! 0%nat = Some (round_solution None w0)) as Hfirst.
  { rewrite Hs, Hstdin, accepted_cons, Hline.
    by rewrite decide_True. }
  destruct Hend as [(k & Hk & Hacc & -> & Hlast)
                   |[(Hnotin & _)|(Hnotin & _)]].
  - split; [done|]. rewrite Hlast. do 3 f_equal.
    destruct k as [|k]; [done|]. exfalso.
    pose proof (play_interactive_ending None w0) as Hend. cbv zeta in Hend.
    destruct Hend as [(k' & _ & Hacc' & Hfirst' & Hr & Hlast')
                     |[(Hnotin & _)|(Hnotin & _)]].
    + unfold main_play, printed in Hlast.
      destruct (play_interactive None w0) as [res w']. simpl in *. subst res.
      simpl in Hlast. rewrite (right_id_L [] (++)), fmap_last, Hlast' in Hlast.
      simplify_eq/=. by destruct (Hfirst' 0%nat ltac:(lia)).
    + destruct Hnotin. apply elem_of_take. exists 0%nat.
      split; [done | unfold max_guesses; lia].
    + destruct Hnotin. by eapply list_elem_of_lookup_2.
  - destruct Hnotin. apply elem_of_take. exists 0%nat.
    split; [done | unfold max_guesses; lia].
  - destruct Hnotin. by eapply list_elem_of_lookup_2.
Qed.

Lemma main_solution_wins_witness :
  (main sample_platform (Args false None None)
        (World (ALLOWED_loaded sample_platform) (λ _, 3%nat)
               [chars " CRANE "; chars "apple"] [])).1.1
  = Return 0
  ∧ last (printed
            (main sample_platform (Args false None None)
               (World (ALLOWED_loaded sample_platform) (λ _, 3%nat)
                      [chars " CRANE "; chars "apple"] [])))
    = Some (Game (Nice 1)).
Proof.
  apply (main_solution_wins sample_platform (Args false None None)
           (World (ALLOWED_loaded sample_platform) (λ _, 3%nat)
                  [chars " CRANE "; chars "apple"] [])
           (chars " CRANE ") [chars "apple"]).
  - reflexivity.
  - reflexivity.
  - reflexivity.
  - reflexivity.
  - vm_compute. reflexivity.
Defined.

(** X19. A forced word is not checked against the allowed set.  When
    [--word] gives five characters that are not an allowed word, the round
    cannot be won: [main] returns 0 with the solution revealed as its last
    line, or 1 with the goodbye. *)
Theorem main_forced_word_unwinnable pf a w wd :
  selftest a = false →
  forced_word a = Some wd →
  length wd = 5%nat →
  wd ∉ ALLOWED w →
  ((main pf a w).1.1 = Return 0
   ∧ last (printed (main pf a w)) = Some (Game (OutOfGuesses wd)))
  ∨ ((main pf a w).1.1 = Return 1
     ∧ last (printed (main pf a w)) = Some Goodbye).
Proof.
  intros Hself Hforced Hlen Hnotin.
  rewrite (main_is_play pf a w Hself)
    by (rewrite Hforced; by intros ? [= <-]).
  rewrite Hforced. set (w0 := seed_random pf a w) in *.
  assert (ALLOWED w0 = ALLOWED w) as Ha
    by (unfold w0, seed_random; by destruct (seed a)).
  assert (lower wd = wd) as Hlow.
  { apply forced_word_Some in Hforced as (s' & _ & _ & ->).
    apply lower_idemp. }
  assert (round_solution (Some wd) w0 = wd) as Hsol.
  { unfold round_solution. by destruct wd as [|c s]. }
  pose proof (main_play_ending (Some wd) w0) as Hend. cbv zeta in Hend.
  rewrite Hsol in Hend.
  destruct Hend as [(k & Hk & Hacc & _)
                   |[(_ & _ & Hr & Hlast)|(_ & _ & Hr & Hlast)]].
  - apply list_elem_of_lookup_2, accepted_elem in Hacc as (_ & _ & Hin).
    destruct Hnotin. by rewrite <- Ha.
  - by left.
  - by right.
Qed.

Lemma main_forced_word_unwinnable_witness :
  ((main sample_platform (Args false (Some (chars "Glass")) None)
         sample_world).1.1 = Return 0
   ∧ last (printed (main sample_platform
                      (Args false (Some (chars "Glass")) None) sample_world))
     = Some (Game (OutOfGuesses (chars "glass"))))
  ∨ ((main sample_platform (Args false (Some (chars "Glass")) None)
           sample_world).1.1 = Return 1
     ∧ last (printed (main sample_platform
                        (Args false (Some (chars "Glass")) None) sample_world))
       = Some Goodbye).
Proof.
  apply (main_forced_word_unwinnable sample_platform
           (Args false (Some (chars "Glass")) None) sample_world
           (chars "glass")).
  - reflexivity.
  - reflexivity.
  - reflexivity.
  - vm_compute. intros H. discriminate H.
Defined.
